(** * fastDeploy: step reconciliation, scoped tokens, service sync,
      delivery retry and the list of steps to do.

    A shallow embedding of the Python sources
    - [deploy/domain/model.py]  ([Step], [Service], [DeploymentPydantic.process_step],
      [ServicePydantic.get_steps], [sync_services]),
    - [deploy/auth.py]          ([create_access_token], [token_to_payload],
      [user_from_token], [service_from_token], [deployment_from_token]),
    - [deploy/views.py]         ([get_steps_from_last_deployment],
      [get_steps_to_do_from_service]),
    - [app/tasks.py]            ([DeployTask.process_deploy_event], [DeployTask.run_deploy]).

    Python objects become records, [None] becomes [option], dictionaries
    become [gmap string _], exceptions become the [Err] branch of a sum, and
    the database becomes an explicit list of rows in creation order. *)

From stdpp Require Import base option list strings gmap fin_maps.
From Stdlib Require Import ZArith Lia Ascii.

Open Scope string_scope.
Open Scope Z_scope.
Open Scope list_scope.

(** ** Results of fallible code *)

Inductive result (E A : Type) : Type :=
| Ok (a : A)
| Err (e : E).
Arguments Ok {E A} a.
Arguments Err {E A} e.

(** A timestamp is a number of seconds; [None] is Python's [None]. *)
Abbreviation time := Z.

(** ** model.py: Step *)

(** [class Step]: [id], [name], [started], [finished], [state],
    [deployment_id], [message].  The state is a plain string in the source
    (["pending"], ["running"], ["success"], ["failure"]). *)
Record Step : Type := mkStep {
  step_id : option Z;
  step_name : string;
  step_started : option time;
  step_finished : option time;
  step_state : string;
  step_deployment_id : option Z;
  step_message : string
}.

#[global] Instance Step_eq_dec : EqDecision Step.
Proof. solve_decision. Defined.

(** [Step(name=n)]: the constructor's defaults are [id=None], [started=None],
    [finished=None], [state="pending"], [message=""], [deployment_id=None]. *)
Definition Step_of_name (n : string) : Step :=
  mkStep None n None None "pending" None "".

(** Attribute assignments [s.field = v]. *)
Definition set_state (v : string) (s : Step) : Step :=
  mkStep (step_id s) (step_name s) (step_started s) (step_finished s) v
         (step_deployment_id s) (step_message s).
Definition set_started (v : option time) (s : Step) : Step :=
  mkStep (step_id s) (step_name s) v (step_finished s) (step_state s)
         (step_deployment_id s) (step_message s).
Definition set_finished (v : option time) (s : Step) : Step :=
  mkStep (step_id s) (step_name s) (step_started s) v (step_state s)
         (step_deployment_id s) (step_message s).
Definition set_message (v : string) (s : Step) : Step :=
  mkStep (step_id s) (step_name s) (step_started s) (step_finished s) (step_state s)
         (step_deployment_id s) v.
Definition set_deployment_id (v : option Z) (s : Step) : Step :=
  mkStep (step_id s) (step_name s) (step_started s) (step_finished s) (step_state s)
         v (step_message s).
Definition set_id (v : option Z) (s : Step) : Step :=
  mkStep v (step_name s) (step_started s) (step_finished s) (step_state s)
         (step_deployment_id s) (step_message s).

(** ** The steps table behind [repository]

    [deploy/domain/database.py] lies outside the files embedded here; the three
    calls [process_step] makes are modelled on a list of rows kept in
    creation order. *)

Abbreviation store := (list Step).

(** Modelled from the spec: [repository.get_steps_by_deployment_id] is
    missing; "Load all Steps currently persisted for the deployment", which
    a deployment "owns" as "an ordered-by-creation set of Steps". *)
Definition get_steps_by_deployment_id (d : Z) (db : store) : list Step :=
  filter (fun s => step_deployment_id s = Some d) db.

(** Modelled from the spec: [repository.update_step] is missing; the storage
    is "an abstract transactional key-by-id store", so an update overwrites
    the row carrying the step's id and hands the step back. *)
Definition update_step (s : Step) (db : store) : Step * store :=
  (s, (fun r => if decide (step_id r = step_id s) then s else r) <$> db).

(** The next primary key: one more than the largest in use. *)
Definition next_id (db : store) : Z :=
  1 + foldr (fun r acc => Z.max (default 0 (step_id r)) acc) 0 db.

(** Modelled from the spec: [repository.add_step] is missing; "create a new
    Step row": the row gets a fresh primary key when it has none and is
    appended, and the persisted step is handed back. *)
Definition add_step (s : Step) (db : store) : Step * store :=
  let s' := match step_id s with
            | Some _ => s
            | None => set_id (Some (next_id db)) s
            end in
  (s', db ++ [s']).

(** ** model.py: DeploymentPydantic *)

Record Deployment : Type := mkDeployment {
  dep_id : option Z;
  dep_service_id : Z;
  dep_origin : string;
  dep_user : string;
  dep_started : option time;
  dep_finished : option time;
  dep_context : gmap string string
}.

(** What [process_step] raises: the two [ValueError]s, told apart by their
    message, and the failed [assert self.id is not None]. *)
Inductive process_error : Type :=
| DeploymentNotStarted      (* ValueError("deployment has not started yet") *)
| DeploymentAlreadyFinished (* ValueError("deployment has already finished") *)
| AssertionError.

#[global] Instance process_error_eq_dec : EqDecision process_error.
Proof. solve_decision. Defined.

(** [for x in xs: if x.name == step.name: known_step = x; break]:
    the first element of [xs] carrying the name. *)
Definition find_by_name (n : string) (xs : list Step) : option Step :=
  head (filter (fun x => step_name x = n) xs).

(** [[step for step in steps if step.state == "running"]] *)
Definition running_steps (steps : list Step) : list Step :=
  filter (fun s => step_state s = "running") steps.

(** [[step for step in steps if step.state == "pending"]] *)
Definition pending_steps (steps : list Step) : list Step :=
  filter (fun s => step_state s = "pending") steps.

(** The four assignments to [known_step] before it is persisted. *)
Definition overwrite (known_step step : Step) (now : time) : Step :=
  set_message (step_message step)
    (set_state (step_state step)
      (set_finished (Some now)
        (set_started (step_started step) known_step))).

(** [DeploymentPydantic.process_step(self, step)], with the clock reading
    [now] and the steps table [db] made explicit.  It yields the persisted
    step or the exception raised, together with the table it leaves. *)
Definition process_step (self : Deployment) (step : Step) (now : time) (db : store)
    : result process_error Step * store :=
  match dep_started self with
  | None => (Err DeploymentNotStarted, db)
  | Some _ =>
    match dep_finished self with
    | Some _ => (Err DeploymentAlreadyFinished, db)
    | None =>
      match dep_id self with
      | None => (Err AssertionError, db)
      | Some self_id =>
        let steps := get_steps_by_deployment_id self_id db in
        (* find out whether the step is already known *)
        let running_match := find_by_name (step_name step) (running_steps steps) in
        let pending := pending_steps steps in
        let '(known_step, db1) :=
          match running_match with
          | None =>
              (* finished step was not already running -> maybe it was pending? *)
              (find_by_name (step_name step) pending, db)
          | Some _ =>
              (* finished step was already running -> change state of next
                 pending step to running unless currently finished step has
                 failed *)
              match pending with
              | next_pending_step :: _ =>
                  if decide (step_state step ≠ "failure")
                  then (running_match,
                        (update_step (set_state "running" next_pending_step) db).2)
                  else (running_match, db)
              | [] => (running_match, db)
              end
          end in
        match known_step with
        | None =>
            (* if it's an unknown step, create a new step *)
            let step1 := set_finished (Some now) step in
            let step2 := set_deployment_id (Some self_id) step1 in
            let '(added, db2) := add_step step2 db1 in
            (Ok added, db2)
        | Some known_step =>
            (* if it's a known step, update it *)
            let '(updated, db2) := update_step (overwrite known_step step now) db1 in
            (Ok updated, db2)
        end
      end
    end
  end.

(** Two readings of that body, used to state what it does: the step the
    [else] branch promotes ([pending_steps[0]], when a running step was
    matched, a pending step exists and the report is not a failure), *)
Definition next_pending_step_of (running_match : option Step) (pending : list Step)
    (step : Step) : option Step :=
  match running_match, pending with
  | Some _, next_pending_step :: _ =>
      if decide (step_state step ≠ "failure") then Some next_pending_step else None
  | _, _ => None
  end.

(** and [known_step] after both searches: a running match wins, else the
    first pending match. *)
Definition known_step_of (steps : list Step) (step : Step) : option Step :=
  match find_by_name (step_name step) (running_steps steps) with
  | Some k => Some k
  | None => find_by_name (step_name step) (pending_steps steps)
  end.

(** Rows of a table carry pairwise distinct primary keys. *)
Definition store_wf (db : store) : Prop :=
  Forall (fun r => is_Some (step_id r)) db ∧ NoDup (step_id <$> db).

Module ProcessStepExamples.

Definition dep : Deployment :=
  mkDeployment (Some 7) 1 "frontend" "jochen" (Some 100) None ∅.

Definition row (i : Z) (n st : string) : Step :=
  mkStep (Some i) n None None st (Some 7) "".

Definition report (n st msg : string) : Step :=
  mkStep None n None None st None msg.

Definition abc : store :=
  [row 1 "A" "running"; row 2 "B" "pending"; row 3 "C" "pending"].

End ProcessStepExamples.

(** ** model.py: Service and sync_services *)

(** One entry of a service's ["steps"] configuration: the dictionary that
    [Step] and [StepBase] receive unpacked as keyword arguments; the name is
    the one required argument. *)
Record StepKwargs : Type := mkStepKwargs {
  kw_name : string;
  kw_started : option time;
  kw_finished : option time;
  kw_state : option string;
  kw_message : option string
}.

#[global] Instance StepKwargs_eq_dec : EqDecision StepKwargs.
Proof. solve_decision. Defined.

(** Values stored in the dictionaries of the program: token claims and
    service configuration. *)
Inductive value : Type :=
| VInt (z : Z)
| VStr (s : string)
| VSteps (l : list StepKwargs).

#[global] Instance value_eq_dec : EqDecision value.
Proof. solve_decision. Defined.

Abbreviation dict := (gmap string value).

(** [class Service]: [id], [name], [data]. *)
Record Service : Type := mkService {
  svc_id : option Z;
  svc_name : string;
  svc_data : dict
}.

#[global] Instance Service_eq_dec : EqDecision Service.
Proof. solve_decision. Defined.

(** [target_service.data = v] *)
Definition set_data (v : dict) (s : Service) : Service :=
  mkService (svc_id s) (svc_name s) v.

(** [sync_services] mutates target services in place and returns them by
    reference.  The target list is the heap of mutable objects, addressed by
    position; a source service is never mutated and stands for itself. *)
Inductive service_ref : Type :=
| SourceObj (s : Service)
| TargetObj (i : nat).

(** [{service.name: service for service in services}]: a later service
    replaces an earlier one of the same name. *)
Definition name_lookup (services : list Service) : gmap string nat :=
  foldl (fun m p => <[svc_name p.2 := p.1]> m) ∅ (imap pair services).

(** One turn of the first loop, on the heap and [updated_services]. *)
Definition sync_visit (target_name_lookup : gmap string nat)
    (st : list Service * list service_ref) (service : Service)
    : list Service * list service_ref :=
  let '(heap, updated_services) := st in
  match target_name_lookup !! svc_name service with
  | Some i =>
      (* service exists in target, check if it needs to be updated *)
      match heap !! i with
      | Some target_service =>
          if decide (svc_data target_service ≠ svc_data service)
          then (<[i := set_data (svc_data service) target_service]> heap,
                updated_services ++ [TargetObj i])
          else (heap, updated_services)
      | None => (heap, updated_services)
      end
  | None =>
      (* service does not exist in target, add it *)
      (heap, updated_services ++ [SourceObj service])
  end.

(** The second loop: the targets whose name is no key of
    [source_name_lookup]. *)
Definition deleted_refs (source_name_lookup : gmap string nat)
    (target_services : list Service) : list service_ref :=
  omap (fun p : nat * Service =>
          match source_name_lookup !! svc_name p.2 with
          | None => Some (TargetObj p.1)
          | Some _ => None
          end)
       (imap pair target_services).

(** What a reference denotes once the function has returned. *)
Definition deref (heap : list Service) (r : service_ref) : option Service :=
  match r with
  | SourceObj s => Some s
  | TargetObj i => heap !! i
  end.

(** The heap and the references after the first loop. *)
Definition sync_services_run (source_services target_services : list Service)
    : list Service * list service_ref :=
  foldl (sync_visit (name_lookup target_services)) (target_services, []) source_services.

(** [sync_services(source_services, target_services)]: the pair
    [(updated_services, deleted_services)] as the caller reads it. *)
Definition sync_services (source_services target_services : list Service)
    : list Service * list Service :=
  let '(heap, updated_services) := sync_services_run source_services target_services in
  let deleted_services := deleted_refs (name_lookup source_services) target_services in
  (omap (deref heap) updated_services, omap (deref heap) deleted_services).

(** The reconciliation as the specification words it, on values.  A source
    service absent by name from the target is an addition; one present with
    differing data is an update that keeps the target's id and takes the
    source's data; one present with equal data is neither. *)
Definition updated_of (target : list Service) (s : Service) : option Service :=
  match head (filter (fun t => svc_name t = svc_name s) target) with
  | None => Some s
  | Some t => if decide (svc_data t ≠ svc_data s)
              then Some (mkService (svc_id t) (svc_name t) (svc_data s)) else None
  end.

(** Additions and updates in source order, and the deletions: the target
    services absent by name from the source, in target order. *)
Definition sync_services_spec (source target : list Service)
    : list Service * list Service :=
  (omap (updated_of target) source,
   filter (fun t => svc_name t ∉ svc_name <$> source) target).

Module SyncExamples.

Definition src_a : Service := mkService None "a" {[ "x" := VInt 1 ]}.
Definition tgt_a : Service := mkService (Some 4) "a" {[ "x" := VInt 2 ]}.
Definition tgt_plain : Service := mkService (Some 5) "a" ∅.

End SyncExamples.

(** ** auth.py: typed tokens *)

(** [class User] and the three repository lookups the token functions make. *)
Record User : Type := mkUser {
  user_id : option Z;
  user_name : option string;
  user_password : option string
}.

(** [settings.secret_key] and [settings.token_sign_algorithm]
    ([deploy/config.py] lies outside the files embedded here). *)
Record Settings : Type := mkSettings {
  secret_key : string;
  token_sign_algorithm : string
}.

(** A signed token: the claims it carries and the signature over them. *)
Record token : Type := mkToken {
  tok_claims : dict;
  tok_signature : string
}.

(** What the token functions raise. *)
Inductive auth_error : Type :=
| InvalidToken       (* jose.JWTError, ExpiredSignatureError included *)
| WrongTokenType     (* ValueError("not an access token" / "not a service token" / "not a deployment token") *)
| MissingSubject     (* ValueError("no service name" / "no deployment id") *)
| PrincipalNotFound. (* the unpacking [[x] = ...] of a lookup that found nothing *)

#[global] Instance auth_error_eq_dec : EqDecision auth_error.
Proof. solve_decision. Defined.

(** The repositories of a unit of work, as far as [auth.py] calls them. *)
Record UnitOfWork : Type := mkUnitOfWork {
  users_get : option value -> option User;
  services_get_by_name : value -> option Service;
  deployments_get : value -> option Deployment
}.

(** A repository call, as recorded in the trace of a token function. *)
Inductive repo_call : Type :=
| UsersGet (username : option value)
| ServicesGetByName (servicename : value)
| DeploymentsGet (deployment_id : value).

(** What [create_access_token] raises. *)
Inductive issue_error : Type :=
| OverflowError. (* "date value out of range" of [datetime.utcnow() + expires_delta] *)

(** [datetime.min] and [datetime.max], years 1 and 9999, in whole seconds
    from the epoch: the dates a [datetime] can hold. *)
Definition datetime_min : Z := -62135596800.
Definition datetime_max : Z := 253402300799.

Definition in_datetime_range (t : time) : Prop := datetime_min <= t <= datetime_max.

#[global] Instance in_datetime_range_dec t : Decision (in_datetime_range t).
Proof. unfold in_datetime_range. apply _. Defined.

(** The registered claims python-jose validates on its own when it finds
    them in a token, besides [exp]: [jwt.decode], called as
    [token_to_payload] calls it (no audience, issuer, subject or access
    token given), refuses for instance every token carrying [aud]. *)
Definition registered_claims : list string :=
  ["aud"; "iat"; "nbf"; "iss"; "sub"; "jti"; "at_hash"].

(** A valid claims map, as the token functions are meant to be given:
    application claims only, none of the registered ones. *)
Definition valid_claims (claims : dict) : Prop :=
  Forall (fun key => claims !! key = None) registered_claims.

#[global] Instance valid_claims_dec claims : Decision (valid_claims claims).
Proof. unfold valid_claims. apply _. Defined.

Section Auth.

(** The keyed signature of python-jose ([jwt.encode] signs with it,
    [jwt.decode] recomputes and compares it): any function of key,
    algorithm and claims. *)
Variable mac : string -> string -> dict -> string.
Variable settings : Settings.

(** Modelled from the spec: [jose.jwt.encode] is an external library;
    "serializes claims plus an absolute expiry, signs with a process-wide
    secret and a configured signing algorithm". *)
Definition jwt_encode (claims : dict) (key algorithm : string) : token :=
  mkToken claims (mac key algorithm claims).

(** Modelled from the spec: [jose.jwt.decode] is an external library;
    "verifies signature and expiry; fails with InvalidToken if
    signature/format is wrong or expired".  The claims come back as they
    were signed; a token is expired when its [exp] lies before [now]. *)
Definition jwt_decode (t : token) (key algorithm : string) (now : time)
    : result auth_error dict :=
  if decide (tok_signature t = mac key algorithm (tok_claims t)) then
    match tok_claims t !! "exp" with
    | None => Ok (tok_claims t)
    | Some (VInt exp) =>
        if decide (exp < now) then Err InvalidToken else Ok (tok_claims t)
    | Some _ => Err InvalidToken
    end
  else Err InvalidToken.

(** [timedelta(minutes=15)], in seconds. *)
Definition default_expiry : Z := 15 * 60.

(** [datetime.utcnow() + delta]: the sum, or [OverflowError] when it is no
    date between [datetime.min] and [datetime.max]. *)
Definition datetime_add (utcnow : time) (delta : Z) : result issue_error time :=
  if decide (in_datetime_range (utcnow + delta)) then Ok (utcnow + delta)
  else Err OverflowError.

(** [create_access_token(payload, expires_delta=None)] at the clock
    reading [utcnow].  [if expires_delta:] is Python truthiness: [None] and
    the zero [timedelta] both take the [else] branch.  The expiry is
    computed, and may overflow, before anything is encoded. *)
Definition create_access_token (payload : dict) (expires_delta : option Z)
    (utcnow : time) : result issue_error token :=
  let expire :=
    match expires_delta with
    | Some delta => if decide (delta ≠ 0) then datetime_add utcnow delta
                    else datetime_add utcnow default_expiry
    | None => datetime_add utcnow default_expiry
    end in
  match expire with
  | Err e => Err e
  | Ok expire =>
      let to_encode := <["exp" := VInt expire]> payload in
      Ok (jwt_encode to_encode (secret_key settings) (token_sign_algorithm settings))
  end.

(** [token_to_payload(token)] at the clock reading [now]. *)
Definition token_to_payload (t : token) (now : time) : result auth_error dict :=
  jwt_decode t (secret_key settings) (token_sign_algorithm settings) now.

(** [user_from_token(token, uow)]: the result and the repository calls
    made, in order. *)
Definition user_from_token (t : token) (uow : UnitOfWork) (now : time)
    : result auth_error User * list repo_call :=
  match token_to_payload t now with
  | Err e => (Err e, [])
  | Ok payload =>
      if decide (payload !! "type" ≠ Some (VStr "user")) then (Err WrongTokenType, [])
      else
        let username := payload !! "user" in
        match users_get uow username with
        | Some user => (Ok user, [UsersGet username])
        | None => (Err PrincipalNotFound, [UsersGet username])
        end
  end.

(** [service_from_token(token, uow)]. *)
Definition service_from_token (t : token) (uow : UnitOfWork) (now : time)
    : result auth_error Service * list repo_call :=
  match token_to_payload t now with
  | Err e => (Err e, [])
  | Ok payload =>
      if decide (payload !! "type" ≠ Some (VStr "service")) then (Err WrongTokenType, [])
      else
        match payload !! "service" with
        | None => (Err MissingSubject, [])
        | Some servicename =>
            match services_get_by_name uow servicename with
            | Some service => (Ok service, [ServicesGetByName servicename])
            | None => (Err PrincipalNotFound, [ServicesGetByName servicename])
            end
        end
  end.

(** [deployment_from_token(token, uow)]. *)
Definition deployment_from_token (t : token) (uow : UnitOfWork) (now : time)
    : result auth_error Deployment * list repo_call :=
  match token_to_payload t now with
  | Err e => (Err e, [])
  | Ok payload =>
      if decide (payload !! "type" ≠ Some (VStr "deployment")) then (Err WrongTokenType, [])
      else
        match payload !! "deployment" with
        | None => (Err MissingSubject, [])
        | Some deployment_id =>
            match deployments_get uow deployment_id with
            | Some deployment => (Ok deployment, [DeploymentsGet deployment_id])
            | None => (Err PrincipalNotFound, [DeploymentsGet deployment_id])
            end
        end
  end.

(** The three token types and the function resolving each; only the
    outcome and the trace are kept, so the three can be compared. *)
Inductive token_type : Type := TUser | TService | TDeployment.

Definition type_name (ty : token_type) : string :=
  match ty with
  | TUser => "user"
  | TService => "service"
  | TDeployment => "deployment"
  end.

Definition outcome {A} (r : result auth_error A * list repo_call)
    : option auth_error * list repo_call :=
  (match r.1 with Ok _ => None | Err e => Some e end, r.2).

Definition resolve_as (expected : token_type) (t : token) (uow : UnitOfWork)
    (now : time) : option auth_error * list repo_call :=
  match expected with
  | TUser => outcome (user_from_token t uow now)
  | TService => outcome (service_from_token t uow now)
  | TDeployment => outcome (deployment_from_token t uow now)
  end.

End Auth.

Module AuthExamples.

Definition mac0 (key algorithm : string) (claims : dict) : string :=
  key +:+ algorithm.
Definition settings0 : Settings := mkSettings "secret" "HS256".
Definition user_claims : dict := {[ "type" := VStr "user"; "user" := VStr "jochen" ]}.
Definition uow0 : UnitOfWork :=
  mkUnitOfWork (fun _ => Some (mkUser (Some 1) (Some "jochen") None))
               (fun _ => None) (fun _ => None).

End AuthExamples.

(** ** views.py and ServicePydantic.get_steps: the steps to do *)

(** [class StepBase]: [name], [started], [finished], [state], [message]. *)
Record StepBase : Type := mkStepBase {
  sb_name : string;
  sb_started : option time;
  sb_finished : option time;
  sb_state : string;
  sb_message : string
}.

#[global] Instance StepBase_eq_dec : EqDecision StepBase.
Proof. solve_decision. Defined.

(** [StepBase(name=n)] *)
Definition StepBase_of_name (n : string) : StepBase :=
  mkStepBase n None None "pending" "".

(** [model.Step] built from a configuration entry. *)
Definition Step_of_kwargs (kw : StepKwargs) : Step :=
  mkStep None (kw_name kw) (kw_started kw) (kw_finished kw)
         (default "pending" (kw_state kw)) None (default "" (kw_message kw)).

(** What building the list of steps can raise. *)
Inductive steps_error : Type :=
| StepsAssertionError (* assert self.id is not None *)
| StepsTypeError.     (* a "steps" entry that is no list of step dictionaries *)

(** [data.get("steps", [])], iterated: a missing key and the empty string
    give no entry, a list gives its entries, anything else cannot be
    iterated into keyword dictionaries. *)
Definition config_steps (data : dict) : result steps_error (list StepKwargs) :=
  match data !! "steps" with
  | None => Ok []
  | Some (VSteps l) => Ok l
  | Some (VStr s) => if decide (s = "") then Ok [] else Err StepsTypeError
  | Some (VInt _) => Err StepsTypeError
  end.

Section StepsToDo.

(** pydantic's reading of a timestamp into the [datetime] fields of
    [StepBase] (an external library: numbers are unix times, taken for
    milliseconds when large). *)
Variable parse_datetime : time -> time.

(** [StepBase] built from a configuration entry: absent keys take the
    field defaults, and the model validates what it is given, converting
    [started] and [finished]. *)
Definition StepBase_of_kwargs (kw : StepKwargs) : StepBase :=
  mkStepBase (kw_name kw) (parse_datetime <$> kw_started kw)
             (parse_datetime <$> kw_finished kw)
             (default "pending" (kw_state kw)) (default "" (kw_message kw)).

(** [get_last_successful_deployment_id(service_id)] of the deployments
    repository, which lies outside the files embedded here. *)
Variable get_last_successful_deployment_id : Z -> option Z.

(** Modelled from the spec: [uow.steps.get_steps_from_deployment] is
    missing; the deployment's "recorded step names, in order" are read off
    its rows in creation order. *)
Definition get_steps_from_deployment (d : Z) (db : store) : list Step :=
  get_steps_by_deployment_id d db.

(** [get_steps_from_last_deployment(service, uow)], the unit of work being the
    steps table it reads. *)
Definition get_steps_from_last_deployment (service : Service) (uow : store) : list Step :=
  match svc_id service with
  | None => []
  | Some service_id =>
      match get_last_successful_deployment_id service_id with
      | Some last_successful_deployment_id =>
          (* try to get steps from last successful deployment *)
          [] ++ get_steps_from_deployment last_successful_deployment_id uow
      | None => []
      end
  end.

(** The tail of [get_steps_to_do_from_service]: configuration, else the
    placeholder. *)
Definition steps_from_config (service : Service) : result steps_error (list Step) :=
  match config_steps (svc_data service) with
  | Err e => Err e
  | Ok kws =>
      let steps := Step_of_kwargs <$> kws in
      if decide (length steps = 0%nat)
      then Ok (steps ++ [Step_of_name "Unknown step"])
      else Ok steps
  end.

(** [get_steps_to_do_from_service(service, uow=None)]. *)
Definition get_steps_to_do_from_service (service : Service) (uow : option store)
    : result steps_error (list Step) :=
  match uow with
  | Some db =>
      let steps := get_steps_from_last_deployment service db in
      match steps with
      | _ :: _ => Ok steps
      | [] => steps_from_config service
      end
  | None => steps_from_config service
  end.

(** [ServicePydantic.get_steps(self)], reading the steps table [db]. *)
Definition get_steps (self : Service) (db : store) : result steps_error (list StepBase) :=
  match svc_id self with
  | None => Err StepsAssertionError
  | Some self_id =>
      let steps :=
        match get_last_successful_deployment_id self_id with
        | Some last_successful_deployment_id =>
            (* try to get steps from last successful deployment *)
            let past_steps := get_steps_by_deployment_id last_successful_deployment_id db in
            Ok ((fun step => StepBase_of_name (step_name step)) <$> past_steps)
        | None =>
            (* try to get steps from config *)
            match config_steps (svc_data self) with
            | Err e => Err e
            | Ok kws => Ok (StepBase_of_kwargs <$> kws)
            end
        end in
      match steps with
      | Err e => Err e
      | Ok steps =>
          if decide (length steps = 0%nat)
          then Ok [StepBase_of_name "Unknown step"]
          else Ok steps
      end
  end.

Definition descriptor_of_StepBase (s : StepBase) : string * string := (sb_name s, sb_state s).


End StepsToDo.

Module StepsExamples.

Definition recorded : store :=
  [mkStep (Some 1) "build" (Some 10) (Some 20) "success" (Some 3) "";
   mkStep (Some 2) "restart" (Some 20) (Some 30) "success" (Some 3) ""].

(** Deployment 3 is the last successful one of service 1; deployment 4 that
    of service 2, with no step recorded. *)
Definition last_ok (service_id : Z) : option Z :=
  if decide (service_id = 1) then Some 3
  else if decide (service_id = 2) then Some 4 else None.

Definition configured : dict :=
  {[ "steps" := VSteps [mkStepKwargs "deploy" None None None None] ]}.

(** A reading of timestamps in the manner of pydantic: a number beyond
    2 * 10^10 is taken for milliseconds. *)
Definition parse (t : time) : time :=
  if decide (20000000000 < Z.abs t) then t / 1000 else t.

End StepsExamples.

(** ** app/tasks.py: delivery of one event, with retry *)

(** What one [client.post] does: it raises [httpx.ConnectError], it raises
    another exception ([httpx.ConnectTimeout], [httpx.ReadTimeout], ...),
    or a response arrives, whose body parses as JSON or does not. *)
Inductive post_outcome : Type :=
| ConnectError
| OtherException (exception : string)
| Response (status_code : Z) (body_is_json : bool).

(** What escapes [process_deploy_event] and [run_deploy]. *)
Inductive task_error : Type :=
| UnboundLocalError                  (* [r] read before any assignment *)
| JSONDecodeError                    (* raised by [r.json()] *)
| PostException (exception : string) (* raised by [client.post], no [ConnectError] *)
| UnicodeDecodeError.                (* raised by [data.decode("UTF-8")] *)

#[global] Instance task_error_eq_dec : EqDecision task_error.
Proof. solve_decision. Defined.

(** The observable effects of the task so far: POSTs attempted, seconds
    slept, events a server answered, lines discarded as unparseable. *)
Record task_state : Type := mkTaskState {
  attempts : nat;
  sleeps : list Z;
  delivered : list dict;
  discarded : list string
}.

Definition initial_task_state : task_state := mkTaskState 0 [] [] [].

Section DeployTask.

(** The network: the outcome of the n-th POST the task ever attempts. *)
Variable network : nat -> post_outcome.

(** [for attempt in range(3): try: r = post(...); break
     except ConnectError: sleep(3)], with [r] the local variable, unbound
    ([None]) until a response is assigned; an exception other than
    [ConnectError] leaves the loop and the function. *)
Fixpoint post_loop (range : list nat) (event : dict) (r : option (Z * bool))
    (st : task_state) : result task_error (option (Z * bool)) * task_state :=
  match range with
  | [] => (Ok r, st)
  | _ :: rest =>
      match network (attempts st) with
      | Response status_code body_is_json =>
          (Ok (Some (status_code, body_is_json)),
           mkTaskState (S (attempts st)) (sleeps st) (delivered st ++ [event]) (discarded st))
      | ConnectError =>
          post_loop rest event r
            (mkTaskState (S (attempts st)) (sleeps st ++ [3]) (delivered st) (discarded st))
      | OtherException exception =>
          (Err (PostException exception),
           mkTaskState (S (attempts st)) (sleeps st) (delivered st) (discarded st))
      end
  end.

(** [DeployTask.process_deploy_event(self, event)]. *)
Definition process_deploy_event (event : dict) (st : task_state)
    : result task_error unit * task_state :=
  match post_loop (seq 0 3) event None st with
  | (Err e, st') => (Err e, st')
  | (Ok r, st') =>
      (* print("response: ", r.status_code, r.json()) *)
      match r with
      | None => (Err UnboundLocalError, st')
      | Some (_, body_is_json) =>
          if body_is_json then (Ok tt, st') else (Err JSONDecodeError, st')
      end
  end.

(** [data.decode("UTF-8")] on the bytes of one line: [None] is
    [UnicodeDecodeError]. *)
Variable bytes_decode : string -> option string.

(** [json.loads] on a decoded line: [None] is [JSONDecodeError]. *)
Variable json_loads : string -> option dict.

(** The loop of [DeployTask.run_deploy] over the lines the script prints
    before its output closes: what the successive [proc.stdout.readline()]
    return before the empty read.  A line is decoded before the [try]: an
    undecodable one ends the loop; [JSONDecodeError] is the one exception
    the [try] catches. *)
Fixpoint run_deploy (lines : list string) (st : task_state)
    : result task_error unit * task_state :=
  match lines with
  | [] => (Ok tt, st)
  | data :: rest =>
      match bytes_decode data with
      | None => (Err UnicodeDecodeError, st)
      | Some decoded =>
          match json_loads decoded with
          | None =>
              run_deploy rest
                (mkTaskState (attempts st) (sleeps st) (delivered st)
                             (discarded st ++ [decoded]))
          | Some message =>
              match process_deploy_event message st with
              | (Ok _, st') => run_deploy rest st'
              | (Err JSONDecodeError, st') =>
                  run_deploy rest
                    (mkTaskState (attempts st') (sleeps st') (delivered st')
                                 (discarded st' ++ [decoded]))
              | (Err e, st') => (Err e, st')
              end
          end
      end
  end.

End DeployTask.

Module TaskExamples.

(** Two refused connections, then a server that answers. *)
Definition flaky (n : nat) : post_outcome :=
  if decide (n < 2)%nat then ConnectError else Response 200 true.

(** A server that is never reached. *)
Definition down (n : nat) : post_outcome := ConnectError.

(** A server that does not answer in time. *)
Definition slow (n : nat) : post_outcome := OtherException "ReadTimeout".

Definition event_a : dict := {[ "name" := VStr "A"; "state" := VStr "success" ]}.

(** A codec that refuses the lines holding the byte 255, which no UTF-8
    text holds, and reads every other line as it is. *)
Definition utf8 (data : string) : option string :=
  if decide (data = String "255"%char EmptyString) then None else Some data.

(** A parser that reads every line but ["garbage"] as [event_a]. *)
Definition loads (line : string) : option dict :=
  if decide (line = "garbage") then None else Some event_a.

End TaskExamples.

(** ** views.py: services read from the filesystem *)

(** [AbstractFilesystem], as far as [views.py] calls it: [list()] and
    [get_config_by_name(name)]. *)
Record Filesystem : Type := mkFilesystem {
  fs_list : list string;
  get_config_by_name : string -> dict
}.

(** [get_service_names(fs)] *)
Definition get_service_names (fs : Filesystem) : list string := fs_list fs.

(** [get_services_from_filesystem(fs)]: one unsaved [Service] per name, in
    the order of the names, with the configuration found under the name. *)
Definition get_services_from_filesystem (fs : Filesystem) : list Service :=
  let names := get_service_names fs in
  foldl (fun services name =>
           services ++ [mkService None name (get_config_by_name fs name)])
        [] names.

(** ** model.py: ServicePydantic.get_deploy_script *)

(** [s.replace("/", "")]: every slash is dropped. *)
Fixpoint remove_slashes (s : string) : string :=
  match s with
  | EmptyString => EmptyString
  | String c rest =>
      if decide (c = "/"%char) then remove_slashes rest
      else String c (remove_slashes rest)
  end.

(** How many slashes a string holds. *)
Fixpoint count_slashes (s : string) : nat :=
  match s with
  | EmptyString => 0
  | String c rest => (if decide (c = "/"%char) then 1 else 0) + count_slashes rest
  end.

(** What [get_deploy_script] raises when the configured script is no string. *)
Inductive script_error : Type :=
| ScriptAttributeError. (* [deploy_script.replace] on a value that is no [str] *)

(** [ServicePydantic.get_deploy_script(self)]:
    [data.get("deploy_script", "deploy.sh")] with its slashes removed, below
    the directory named like the service. *)
Definition get_deploy_script (self : Service) : result script_error string :=
  match default (VStr "deploy.sh") (svc_data self !! "deploy_script") with
  | VStr deploy_script =>
      let deploy_script := remove_slashes deploy_script in
      Ok (svc_name self +:+ "/" +:+ deploy_script)
  | _ => Err ScriptAttributeError
  end.

(** ** model.py and events.py: Service.delete *)

(** [events.ServiceCreated] and [events.ServiceDeleted]. *)
Inductive Event : Type :=
| ServiceCreated (id : Z) (name : string) (data : dict)
| ServiceDeleted (id : Z).

(** [Service.delete(self)].  [events] is a class attribute of [Service]: one
    list shared by all services, passed here as the state. *)
Definition delete (self : Service) (events : list Event) : list Event :=
  match svc_id self with
  | Some id => events ++ [ServiceDeleted id]
  | None => events
  end.

Module FilesystemExamples.

Definition fs0 : Filesystem :=
  mkFilesystem ["a"; "b"]
    (fun name => if decide (name = "a") then {[ "x" := VInt 1 ]} else ∅).

End FilesystemExamples.

(** * Reconciliation of step reports: [process_step] *)

Section ProcessStep.

Implicit Types (s k p x r : Step) (db : store) (steps : list Step).

(** *** The searches *)

Lemma find_by_name_Some n steps k :
  find_by_name n steps = Some k -> k ∈ steps /\ step_name k = n.
Proof.
  unfold find_by_name. intros Hh.
  apply head_Some_elem_of in Hh. apply list_elem_of_filter in Hh. tauto.
Qed.

Lemma find_by_name_None n steps :
  find_by_name n steps = None <-> forall x, x ∈ steps -> step_name x <> n.
Proof.
  unfold find_by_name. rewrite head_None. split.
  - intros He x Hx Hn.
    assert (Hin : x ∈ filter (fun y => step_name y = n) steps)
      by (apply list_elem_of_filter; auto).
    rewrite He in Hin. by apply elem_of_nil in Hin.
  - intros Hall. destruct (filter _ steps) as [|y l] eqn:E; [done|].
    assert (Hy : y ∈ filter (fun y => step_name y = n) steps)
      by (rewrite E; apply elem_of_cons; auto).
    apply list_elem_of_filter in Hy. destruct Hy as [Hn Hy]. by destruct (Hall y Hy).
Qed.

Lemma known_step_of_Some steps step k :
  known_step_of steps step = Some k ->
  k ∈ steps /\ step_name k = step_name step /\
  (step_state k = "running" \/ step_state k = "pending").
Proof.
  unfold known_step_of, running_steps, pending_steps.
  destruct (find_by_name _ (filter (fun s => step_state s = "running") steps)) as [k'|] eqn:E.
  - intros [= <-]. apply find_by_name_Some in E as [Hin Hn].
    apply list_elem_of_filter in Hin. tauto.
  - intros E'. apply find_by_name_Some in E' as [Hin Hn].
    apply list_elem_of_filter in Hin. tauto.
Qed.

Lemma known_step_of_None steps step :
  known_step_of steps step = None <->
  forall x, x ∈ steps -> step_state x = "running" \/ step_state x = "pending" ->
            step_name x <> step_name step.
Proof.
  unfold known_step_of, running_steps, pending_steps. split.
  - destruct (find_by_name _ (filter (fun s => step_state s = "running") steps)) eqn:E; [done|].
    intros E' x Hx [Hs|Hs].
    + eapply find_by_name_None; [exact E|]. apply list_elem_of_filter; auto.
    + eapply find_by_name_None; [exact E'|]. apply list_elem_of_filter; auto.
  - intros Hall.
    assert (E : find_by_name (step_name step)
                  (filter (fun s => step_state s = "running") steps) = None).
    { apply find_by_name_None. intros x Hx. apply list_elem_of_filter in Hx.
      apply Hall; tauto. }
    rewrite E. apply find_by_name_None. intros x Hx.
    apply list_elem_of_filter in Hx. apply Hall; tauto.
Qed.

Lemma next_pending_step_of_Some rm pend step p0 :
  next_pending_step_of rm pend step = Some p0 ->
  exists k rest, rm = Some k /\ pend = p0 :: rest /\ step_state step <> "failure".
Proof.
  unfold next_pending_step_of. destruct rm as [k|]; [|done].
  destruct pend as [|p1 rest]; [done|].
  case_decide; [|done]. intros [= <-]. by exists k, rest.
Qed.

(** *** The table operations *)

Lemma update_step_elem s db x :
  x ∈ (update_step s db).2 -> x = s \/ x ∈ db.
Proof.
  simpl. intros Hx. apply list_elem_of_fmap in Hx as (y & -> & Hy).
  case_decide; auto.
Qed.

Lemma update_step_lookup s db i x :
  db !! i = Some x ->
  (update_step s db).2 !! i = Some (if decide (step_id x = step_id s) then s else x).
Proof. simpl. intros Hx. by rewrite list_lookup_fmap, Hx. Qed.

Lemma update_step_length s db : length (update_step s db).2 = length db.
Proof. simpl. apply length_fmap. Qed.

Lemma get_steps_update s db d :
  (forall x, x ∈ db -> step_id x = step_id s ->
             step_deployment_id x = step_deployment_id s) ->
  get_steps_by_deployment_id d (update_step s db).2
  = (update_step s (get_steps_by_deployment_id d db)).2.
Proof.
  unfold get_steps_by_deployment_id. simpl. induction db as [|y db IH]; [done|].
  intros Hsame. rewrite fmap_cons, !filter_cons.
  assert (IH' := IH (fun x Hx => Hsame x (proj2 (elem_of_cons _ _ _) (or_intror Hx)))).
  assert (Hy := Hsame y (proj2 (elem_of_cons _ _ _) (or_introl eq_refl))).
  destruct (decide (step_id y = step_id s)) as [Hid|Hid].
  - rewrite <- (Hy Hid).
    destruct (decide (step_deployment_id y = Some d)); rewrite IH'; [|done].
    rewrite fmap_cons. by rewrite decide_True.
  - destruct (decide (step_deployment_id y = Some d)); rewrite IH'; [|done].
    rewrite fmap_cons. by rewrite decide_False.
Qed.

Lemma next_id_bound db x z :
  x ∈ db -> step_id x = Some z -> z < next_id db.
Proof.
  unfold next_id. induction db as [|y db IH]; intros Hx Hz.
  - by apply elem_of_nil in Hx.
  - apply elem_of_cons in Hx as [->|Hx]; simpl.
    + rewrite Hz. simpl. lia.
    + specialize (IH Hx Hz). lia.
Qed.

Lemma next_id_fresh db : Some (next_id db) ∉ step_id <$> db.
Proof.
  intros Hin. apply list_elem_of_fmap in Hin as (x & Hid & Hx).
  symmetry in Hid. pose proof (next_id_bound db x _ Hx Hid). lia.
Qed.

(** *** Past the guards: the body in terms of the two readings *)

Lemma process_step_running self step now db d :
  is_Some (dep_started self) -> dep_finished self = None -> dep_id self = Some d ->
  process_step self step now db =
    let steps := get_steps_by_deployment_id d db in
    let db1 :=
      match next_pending_step_of (find_by_name (step_name step) (running_steps steps))
                                 (pending_steps steps) step with
      | Some next_pending_step =>
          (update_step (set_state "running" next_pending_step) db).2
      | None => db
      end in
    match known_step_of steps step with
    | None =>
        let '(added, db2) :=
          add_step (set_deployment_id (Some d) (set_finished (Some now) step)) db1 in
        (Ok added, db2)
    | Some known_step =>
        let '(updated, db2) := update_step (overwrite known_step step now) db1 in
        (Ok updated, db2)
    end.
Proof.
  intros [t Ht] Hf Hd. unfold process_step. rewrite Ht, Hf, Hd. cbv zeta.
  unfold known_step_of, next_pending_step_of.
  destruct (find_by_name (step_name step) (running_steps _)) as [k|]; [|done].
  destruct (pending_steps _) as [|p0 rest]; [done|].
  by case_decide.
Qed.

End ProcessStep.

(** *** Well-formed tables *)

Lemma store_wf_inj db x y :
  store_wf db -> x ∈ db -> y ∈ db -> step_id x = step_id y -> x = y.
Proof.
  intros [_ Hnd] Hx Hy Hid.
  apply list_elem_of_lookup in Hx as [i Hi]. apply list_elem_of_lookup in Hy as [j Hj].
  assert (Hfi : (step_id <$> db) !! i = Some (step_id x))
    by (by rewrite list_lookup_fmap, Hi).
  assert (Hfj : (step_id <$> db) !! j = Some (step_id x))
    by (by rewrite list_lookup_fmap, Hj, Hid).
  pose proof (NoDup_lookup _ _ _ _ Hnd Hfi Hfj) as ->. congruence.
Qed.

Lemma store_wf_steps_NoDup db d :
  store_wf db -> NoDup (step_id <$> get_steps_by_deployment_id d db).
Proof.
  intros [_ Hnd]. eapply sublist_NoDup; [exact Hnd|].
  apply fmap_sublist. unfold get_steps_by_deployment_id. apply sublist_filter.
Qed.

Lemma get_steps_elem d db x :
  x ∈ get_steps_by_deployment_id d db <-> step_deployment_id x = Some d /\ x ∈ db.
Proof. unfold get_steps_by_deployment_id. by rewrite list_elem_of_filter. Qed.

(** *** The guards (C4) *)

(** C4: [process_step] fails with DeploymentNotStarted whenever [started]
    is null, and with DeploymentAlreadyFinished whenever [finished] is not
    null, whatever the incoming step, and in both cases the steps table is
    left as it was.  The guards are tested in the order the specification
    lists them, so the second error is the one raised when the deployment
    has started, which a finished deployment always has ([finished] is
    never set before [started]). *)
Theorem process_step_guards self step now db :
  (dep_started self = None ->
     process_step self step now db = (Err DeploymentNotStarted, db)) /\
  ((dep_finished self <> None -> dep_started self <> None) ->
     dep_finished self <> None ->
     process_step self step now db = (Err DeploymentAlreadyFinished, db)) /\
  (dep_started self = None \/ dep_finished self <> None ->
     process_step self step now db =
       (Err (if decide (dep_started self = None)
             then DeploymentNotStarted else DeploymentAlreadyFinished), db)).
Proof.
  unfold process_step. split_and!.
  - by intros ->.
  - intros Hinv Hfin. specialize (Hinv Hfin).
    destruct (dep_started self) as [t|]; [|done].
    by destruct (dep_finished self).
  - intros Hg. destruct (dep_started self) as [t|]; [|by rewrite decide_True].
    rewrite decide_False by done.
    destruct (dep_finished self) as [t'|]; [done|]. by destruct Hg.
Qed.

Lemma process_step_guards_witness :
  process_step (mkDeployment (Some 7) 1 "frontend" "jochen" (Some 100) (Some 150) ∅)
               (ProcessStepExamples.report "A" "success" "") 200 ProcessStepExamples.abc
  = (Err DeploymentAlreadyFinished, ProcessStepExamples.abc).
Proof.
  destruct (process_step_guards
              (mkDeployment (Some 7) 1 "frontend" "jochen" (Some 100) (Some 150) ∅)
              (ProcessStepExamples.report "A" "success" "") 200 ProcessStepExamples.abc)
    as (_ & Hfin & _).
  apply Hfin; simpl; discriminate.
Defined.

(** Outside the data model, with [finished] set on a deployment never
    started, it is the [started] guard, tested first, that answers. *)
Example process_step_finished_never_started :
  let self := mkDeployment (Some 7) 1 "frontend" "jochen" None (Some 150) ∅ in
  let step := ProcessStepExamples.report "A" "success" "" in
  process_step self step 200 ProcessStepExamples.abc
  = (Err DeploymentNotStarted, ProcessStepExamples.abc).
Proof. vm_compute. reflexivity. Qed.

(** *** Unknown steps are created (C3) *)

(** C3: on a started, unfinished deployment, a report whose name matches no
    running and no pending step of the deployment is appended to the table
    as a new row with the report's name, state, start and message, the
    deployment's id and [finished = now], under a primary key not in use
    when the report brought none; that row is returned, and no other row
    changes. *)
Theorem process_step_creates_unknown_step self step now db d :
  is_Some (dep_started self) -> dep_finished self = None -> dep_id self = Some d ->
  (forall x, x ∈ get_steps_by_deployment_id d db ->
             step_state x = "running" \/ step_state x = "pending" ->
             step_name x <> step_name step) ->
  exists new,
    process_step self step now db = (Ok new, db ++ [new]) /\
    step_name new = step_name step /\
    step_state new = step_state step /\
    step_deployment_id new = Some d /\
    step_finished new = Some now /\
    step_started new = step_started step /\
    step_message new = step_message step /\
    (step_id step = None -> step_id new = Some (next_id db) /\ step_id new ∉ step_id <$> db) /\
    get_steps_by_deployment_id d (db ++ [new]) = get_steps_by_deployment_id d db ++ [new].
Proof.
  intros Hs Hf Hd Hnone.
  rewrite (process_step_running _ _ _ _ _ Hs Hf Hd). cbv zeta.
  pose proof (proj2 (known_step_of_None _ _) Hnone) as Hk. rewrite Hk.
  assert (Hrun : find_by_name (step_name step)
                   (running_steps (get_steps_by_deployment_id d db)) = None).
  { unfold known_step_of in Hk. by destruct (find_by_name _ (running_steps _)). }
  rewrite Hrun. simpl next_pending_step_of. unfold add_step.
  set (new := match step_id _ with Some _ => _ | None => _ end).
  exists new.
  assert (Hfields : step_name new = step_name step /\ step_state new = step_state step /\
            step_deployment_id new = Some d /\ step_finished new = Some now /\
            step_started new = step_started step /\ step_message new = step_message step).
  { subst new. simpl. by destruct (step_id step). }
  destruct Hfields as (? & ? & ? & ? & ? & ?).
  split_and!; try assumption; try reflexivity.
  - subst new. simpl. intros ->. simpl. split; [reflexivity|apply next_id_fresh].
  - unfold get_steps_by_deployment_id. rewrite filter_app. f_equal.
    rewrite filter_cons, decide_True by assumption. done.
Qed.

Lemma process_step_creates_unknown_step_witness :
  exists new,
    process_step ProcessStepExamples.dep (ProcessStepExamples.report "X" "running" "") 200 []
      = (Ok new, [] ++ [new]) /\
    step_name new = "X" /\ step_state new = "running" /\
    step_deployment_id new = Some 7 /\ step_finished new = Some 200.
Proof.
  destruct (process_step_creates_unknown_step ProcessStepExamples.dep
              (ProcessStepExamples.report "X" "running" "") 200 [] 7)
    as (new & Hp & Hn & Hst & Hdi & Hfin & _).
  - simpl. eauto.
  - reflexivity.
  - reflexivity.
  - intros x Hx. vm_compute in Hx. by apply elem_of_nil in Hx.
  - exists new. auto.
Defined.

(** *** A matched report, row by row *)

Lemma known_step_running_match steps step k0 :
  find_by_name (step_name step) (running_steps steps) = Some k0 ->
  known_step_of steps step = Some k0 /\ step_state k0 = "running".
Proof.
  intros E. unfold known_step_of. rewrite E. split; [done|].
  apply find_by_name_Some in E as [Hin _].
  unfold running_steps in Hin. apply list_elem_of_filter in Hin. tauto.
Qed.

Lemma pending_head steps p0 rest :
  pending_steps steps = p0 :: rest -> p0 ∈ steps /\ step_state p0 = "pending".
Proof.
  intros E. assert (Hin : p0 ∈ pending_steps steps) by (rewrite E; apply elem_of_cons; auto).
  unfold pending_steps in Hin. apply list_elem_of_filter in Hin. tauto.
Qed.

(** The rows after a matched report, read off the two updates. *)
Lemma process_step_known self step now db d k :
  is_Some (dep_started self) -> dep_finished self = None -> dep_id self = Some d ->
  known_step_of (get_steps_by_deployment_id d db) step = Some k ->
  let steps := get_steps_by_deployment_id d db in
  let promoted :=
    next_pending_step_of (find_by_name (step_name step) (running_steps steps))
                         (pending_steps steps) step in
  exists db',
    process_step self step now db = (Ok (overwrite k step now), db') /\
    k ∈ db /\ step_deployment_id k = Some d /\
    (forall p, promoted = Some p ->
       p ∈ db /\ step_deployment_id p = Some d /\ step_state p = "pending" /\
       step_state k = "running" /\ step_state step <> "failure") /\
    length db' = length db /\
    (forall i x, db !! i = Some x ->
       db' !! i = Some x \/ step_id x = step_id k \/
       exists p, promoted = Some p /\ step_id x = step_id p) /\
    (store_wf db -> forall i x, db !! i = Some x ->
       db' !! i = Some (if decide (x = k) then overwrite k step now
                        else if decide (Some x = promoted) then set_state "running" x
                        else x)).
Proof.
  intros Hs Hf Hd Hk steps promoted.
  rewrite (process_step_running _ _ _ _ _ Hs Hf Hd). cbv zeta. rewrite Hk.
  destruct (known_step_of_Some _ _ _ Hk) as (Hkin & Hkn & Hkst).
  apply get_steps_elem in Hkin as [Hkd Hkdb].
  subst promoted steps.
  destruct (next_pending_step_of _ _ step) as [p0|] eqn:Hp.
  - apply next_pending_step_of_Some in Hp as (k0 & rest & Hrm & Hpend & Hnf).
    destruct (known_step_running_match _ _ _ Hrm) as [Hk0 Hrun].
    rewrite Hk in Hk0. injection Hk0 as <-.
    destruct (pending_head _ _ _ Hpend) as [Hp0in Hp0st].
    apply get_steps_elem in Hp0in as [Hp0d Hp0db].
    eexists. split; [reflexivity|].
    split_and!; try done.
    + intros p [= <-]. done.
    + simpl. by rewrite !length_fmap.
    + intros i x Hx. simpl. rewrite !list_lookup_fmap, Hx. simpl.
      destruct (decide (step_id x = step_id p0)) as [E|E]; [right; right; eauto|].
      destruct (decide (step_id x = step_id k)); [by right; left|by left].
    + intros Hwf i x Hx. simpl. rewrite !list_lookup_fmap, Hx. simpl.
      assert (Hxdb : x ∈ db) by (apply list_elem_of_lookup; eauto).
      assert (Hkp : step_id k <> step_id p0).
      { intros E. apply (store_wf_inj db) in E; [|done..]. subst. congruence. }
      assert (Hinj : forall a b, a ∈ db -> b ∈ db -> step_id a = step_id b -> a = b)
        by (intros a b; by apply store_wf_inj).
      f_equal. repeat case_decide; simpl in *;
        repeat match goal with
        | H : step_id ?a = step_id ?b |- _ => apply Hinj in H; [subst|assumption..]
        end; simplify_eq; done.
  - eexists. split; [reflexivity|].
    split_and!; try done.
    + simpl. by rewrite length_fmap.
    + intros i x Hx. simpl. rewrite list_lookup_fmap, Hx. simpl.
      destruct (decide (step_id x = step_id k)); [by right; left|by left].
    + intros Hwf i x Hx. simpl. rewrite list_lookup_fmap, Hx. simpl.
      assert (Hxdb : x ∈ db) by (apply list_elem_of_lookup; eauto).
      assert (Hinj : forall a b, a ∈ db -> b ∈ db -> step_id a = step_id b -> a = b)
        by (intros a b; by apply store_wf_inj).
      f_equal. repeat case_decide; simpl in *;
        repeat match goal with
        | H : step_id ?a = step_id ?b |- _ => apply Hinj in H; [subst|assumption..]
        end; simplify_eq; done.
Qed.

(** *** What a matched report touches (C10) *)

(** C10: when the report matches a persisted running or pending step [k],
    the step persisted and returned is [k] with [started], [finished],
    [state] and [message] overwritten and [id], [name] and [deployment_id]
    kept; the table keeps its length, and a row changes only if it carries
    the id of [k] or of the one pending step promoted, if any.  On a table
    with distinct primary keys the rows are exactly: [k] overwritten, the
    promoted step set to running, every other row as before. *)
Theorem process_step_frame self step now db d k :
  is_Some (dep_started self) -> dep_finished self = None -> dep_id self = Some d ->
  known_step_of (get_steps_by_deployment_id d db) step = Some k ->
  exists db' (promoted : option Step),
    process_step self step now db = (Ok (overwrite k step now), db') /\
    k ∈ db /\ step_deployment_id k = Some d /\
    step_id (overwrite k step now) = step_id k /\
    step_name (overwrite k step now) = step_name k /\
    step_deployment_id (overwrite k step now) = step_deployment_id k /\
    step_started (overwrite k step now) = step_started step /\
    step_finished (overwrite k step now) = Some now /\
    step_state (overwrite k step now) = step_state step /\
    step_message (overwrite k step now) = step_message step /\
    (forall p, promoted = Some p ->
       p ∈ db /\ step_deployment_id p = Some d /\ step_state p = "pending" /\
       step_state k = "running" /\ step_state step <> "failure") /\
    length db' = length db /\
    (forall i x, db !! i = Some x ->
       db' !! i = Some x \/ step_id x = step_id k \/
       exists p, promoted = Some p /\ step_id x = step_id p) /\
    (store_wf db -> forall i x, db !! i = Some x ->
       db' !! i = Some (if decide (x = k) then overwrite k step now
                        else if decide (Some x = promoted) then set_state "running" x
                        else x)).
Proof.
  intros Hs Hf Hd Hk.
  destruct (process_step_known _ _ now _ _ _ Hs Hf Hd Hk)
    as (db' & Hp & Hin & Hkd & Hprom & Hlen & Hframe & Hrows).
  exists db', (next_pending_step_of
                 (find_by_name (step_name step)
                    (running_steps (get_steps_by_deployment_id d db)))
                 (pending_steps (get_steps_by_deployment_id d db)) step).
  split_and!; done.
Qed.

Lemma process_step_frame_witness :
  exists db' promoted,
    process_step ProcessStepExamples.dep (ProcessStepExamples.report "A" "success" "done")
                 200 ProcessStepExamples.abc
    = (Ok (overwrite (ProcessStepExamples.row 1 "A" "running")
                     (ProcessStepExamples.report "A" "success" "done") 200), db') /\
    (forall p, promoted = Some p -> step_state p = "pending") /\
    db' !! 2%nat = Some (ProcessStepExamples.row 3 "C" "pending").
Proof.
  destruct (process_step_frame ProcessStepExamples.dep
              (ProcessStepExamples.report "A" "success" "done") 200
              ProcessStepExamples.abc 7 (ProcessStepExamples.row 1 "A" "running"))
    as (db' & promoted & Hp & _ & _ & _ & _ & _ & _ & _ & _ & _ & Hprom & _).
  - simpl. eauto.
  - reflexivity.
  - reflexivity.
  - vm_compute. reflexivity.
  - exists db', promoted.
    split; [exact Hp|]. split; [intros p Hpp; apply (Hprom p Hpp)|].
    vm_compute in Hp. injection Hp as <-. reflexivity.
Defined.

(** *** Promotion (C1, C2) *)

Lemma get_steps_fmap (g : Step -> Step) db d :
  (forall x, x ∈ db -> step_deployment_id (g x) = step_deployment_id x) ->
  get_steps_by_deployment_id d (g <$> db) = g <$> get_steps_by_deployment_id d db.
Proof.
  unfold get_steps_by_deployment_id. induction db as [|y db IH]; [done|].
  intros Hg. rewrite fmap_cons, !filter_cons.
  rewrite (Hg y) by (apply elem_of_cons; auto).
  rewrite IH by (intros x Hx; apply Hg, elem_of_cons; auto).
  by destruct (decide (step_deployment_id y = Some d)).
Qed.

Lemma rows_as_fmap (g : Step -> Step) (db db' : store) :
  length db' = length db ->
  (forall i x, db !! i = Some x -> db' !! i = Some (g x)) ->
  db' = g <$> db.
Proof.
  intros Hlen Hrows. apply list_eq. intros i. rewrite list_lookup_fmap.
  destruct (db !! i) as [x|] eqn:E.
  - by apply Hrows.
  - simpl. apply lookup_ge_None. rewrite Hlen. by apply lookup_ge_None.
Qed.

(** Every row after [process_step] is an old row, the returned step, or the
    promoted pending step. *)
Lemma process_step_rows self step now db d :
  is_Some (dep_started self) -> dep_finished self = None -> dep_id self = Some d ->
  let steps := get_steps_by_deployment_id d db in
  exists r db',
    process_step self step now db = (Ok r, db') /\
    forall x, x ∈ db' ->
      x ∈ db \/ x = r \/
      exists p0, next_pending_step_of (find_by_name (step_name step) (running_steps steps))
                   (pending_steps steps) step = Some p0 /\
                 x = set_state "running" p0.
Proof.
  intros Hs Hf Hd steps. subst steps.
  rewrite (process_step_running _ _ _ _ _ Hs Hf Hd). cbv zeta.
  set (np := next_pending_step_of _ _ step).
  assert (Hdb1 : forall x,
            x ∈ match np with
                | Some p => (update_step (set_state "running" p) db).2
                | None => db
                end ->
            x ∈ db \/ exists p0, np = Some p0 /\ x = set_state "running" p0).
  { intros x Hx. destruct np as [p0|]; [|by left].
    apply update_step_elem in Hx as [->|Hx]; [right; eauto|by left]. }
  destruct (known_step_of _ step) as [k|].
  - eexists _, _. split; [reflexivity|]. intros x Hx.
    apply update_step_elem in Hx as [->|Hx]; [by right; left|].
    destruct (Hdb1 x Hx) as [?|?]; auto.
  - unfold add_step. eexists _, _. split; [reflexivity|]. intros x Hx.
    apply elem_of_app in Hx as [Hx|Hx].
    + destruct (Hdb1 x Hx) as [?|?]; auto.
    + apply list_elem_of_singleton in Hx. by right; left.
Qed.

(** The first element a filter keeps is the first element of the list that
    satisfies the predicate. *)
Lemma head_filter_first {A} (P : A -> Prop) `{!forall x, Decision (P x)} (l : list A) x :
  head (filter P l) = Some x ->
  exists i, l !! i = Some x /\ P x /\
            forall j y, (j < i)%nat -> l !! j = Some y -> ~ P y.
Proof.
  induction l as [|a l IH]; [done|]. rewrite filter_cons.
  destruct (decide (P a)) as [Ha|Ha].
  - intros [= <-]. exists 0%nat. split_and!; try done. intros j y Hj. lia.
  - intros Hh. destruct (IH Hh) as (i & Hi & HP & Hfirst).
    exists (S i). split_and!; try done.
    intros [|j] y Hj Hy; simpl in Hy; [by injection Hy as <-|].
    apply (Hfirst j); [lia|done].
Qed.

Lemma head_filter_exists {A} (P : A -> Prop) `{!forall x, Decision (P x)} (l : list A) y :
  y ∈ l -> P y -> is_Some (head (filter P l)).
Proof.
  intros Hy HP. destruct (filter P l) as [|x l'] eqn:E; [|by eexists].
  assert (Hin : y ∈ filter P l) by (by apply list_elem_of_filter).
  rewrite E in Hin. by apply elem_of_nil in Hin.
Qed.

(** The two searches of [process_step], by the states of the steps. *)
Lemma find_running_first n (steps : list Step) k :
  find_by_name n (running_steps steps) = Some k ->
  k ∈ steps /\ step_state k = "running" /\ step_name k = n.
Proof.
  intros E. apply find_by_name_Some in E as [Hin Hn].
  unfold running_steps in Hin. apply list_elem_of_filter in Hin. tauto.
Qed.

Lemma find_running_None n (steps : list Step) :
  find_by_name n (running_steps steps) = None <->
  forall x, x ∈ steps -> step_state x = "running" -> step_name x <> n.
Proof.
  rewrite find_by_name_None. unfold running_steps. split.
  - intros H x Hx Hst. apply H. by apply list_elem_of_filter.
  - intros H x Hx. apply list_elem_of_filter in Hx as [Hst Hx]. by apply H.
Qed.

Lemma find_pending_first n (steps : list Step) k :
  find_by_name n (pending_steps steps) = Some k ->
  exists i, steps !! i = Some k /\ step_state k = "pending" /\ step_name k = n /\
    forall j y, (j < i)%nat -> steps !! j = Some y ->
      ~ (step_state y = "pending" /\ step_name y = n).
Proof.
  unfold find_by_name, pending_steps. rewrite list_filter_filter. intros E.
  apply head_filter_first in E as (i & Hi & [Hn Hst] & Hfirst).
  exists i. split_and!; try done. intros j y Hj Hy [Hys Hyn]. by apply (Hfirst j y).
Qed.

Lemma find_pending_exists n (steps : list Step) y :
  y ∈ steps -> step_state y = "pending" -> step_name y = n ->
  is_Some (find_by_name n (pending_steps steps)).
Proof.
  intros Hy Hst Hn. unfold find_by_name, pending_steps. rewrite list_filter_filter.
  by apply (head_filter_exists _ steps y).
Qed.

Lemma pending_first (steps : list Step) p0 rest :
  pending_steps steps = p0 :: rest ->
  exists i, steps !! i = Some p0 /\ step_state p0 = "pending" /\
    forall j y, (j < i)%nat -> steps !! j = Some y -> step_state y <> "pending".
Proof.
  intros E. unfold pending_steps in E.
  assert (Hh : head (filter (fun s => step_state s = "pending") steps) = Some p0)
    by (by rewrite E).
  apply head_filter_first in Hh as (i & Hi & Hst & Hfirst). eauto.
Qed.

(** C2: past the guards [process_step] always returns a step [r].  A row of
    the new table that is neither an old row nor [r] is a step of the
    deployment that was in state pending, the first such, now set to
    running; and then a step of the deployment in state running bears the
    report's name and the report is no failure.  So a failure report, and a
    report whose name no running step bears, leave every row other than
    [r] as it was: on steps [[A:running]] a failure report for [A] gives
    [[A:failure]], and a report that matches only a pending step overwrites
    that step, the first pending one of its name, and nothing else. *)
Theorem process_step_promotes_only_after_running_success self step now db d :
  is_Some (dep_started self) -> dep_finished self = None -> dep_id self = Some d ->
  let steps := get_steps_by_deployment_id d db in
  exists r db',
    process_step self step now db = (Ok r, db') /\
    (forall x, x ∈ db' ->
       x ∈ db \/ x = r \/
       exists k p0 i,
         k ∈ steps /\ step_state k = "running" /\ step_name k = step_name step /\
         step_state step <> "failure" /\
         steps !! i = Some p0 /\ step_state p0 = "pending" /\
         (forall j y, (j < i)%nat -> steps !! j = Some y -> step_state y <> "pending") /\
         x = set_state "running" p0) /\
    (step_state step = "failure" -> forall x, x ∈ db' -> x ∈ db \/ x = r) /\
    ((forall y, y ∈ steps -> step_state y = "running" -> step_name y <> step_name step) ->
       forall x, x ∈ db' -> x ∈ db \/ x = r) /\
    (forall A, store_wf db -> steps = [A] -> step_state A = "running" ->
       step_name A = step_name step -> step_state step = "failure" ->
       r = overwrite A step now /\ step_state r = "failure" /\
       get_steps_by_deployment_id d db' = [r]) /\
    ((forall y, y ∈ steps -> step_state y = "running" -> step_name y <> step_name step) ->
     forall y, y ∈ steps -> step_state y = "pending" -> step_name y = step_name step ->
       exists k i,
         steps !! i = Some k /\ step_state k = "pending" /\ step_name k = step_name step /\
         (forall j z, (j < i)%nat -> steps !! j = Some z ->
            ~ (step_state z = "pending" /\ step_name z = step_name step)) /\
         r = overwrite k step now /\
         length db' = length db /\
         forall i x, db !! i = Some x ->
           db' !! i = Some (if decide (step_id x = step_id k) then r else x)).
Proof.
  intros Hs Hf Hd steps.
  destruct (process_step_rows self step now db d Hs Hf Hd) as (r & db' & Hp & Hrows).
  fold steps in Hrows.
  assert (Hcore : forall x, x ∈ db' ->
            x ∈ db \/ x = r \/
            exists k p0 i,
              k ∈ steps /\ step_state k = "running" /\ step_name k = step_name step /\
              step_state step <> "failure" /\
              steps !! i = Some p0 /\ step_state p0 = "pending" /\
              (forall j y, (j < i)%nat -> steps !! j = Some y -> step_state y <> "pending") /\
              x = set_state "running" p0).
  { intros x Hx. destruct (Hrows x Hx) as [?|[?|(p0 & Hnp & ->)]]; auto.
    right; right.
    apply next_pending_step_of_Some in Hnp as (k & rest & Hrm & Hpend & Hnf).
    apply find_running_first in Hrm as (Hkin & Hkst & Hkn).
    apply pending_first in Hpend as (i & Hi & Hpst & Hfirst).
    exists k, p0, i. split_and!; done. }
  exists r, db'. split; [exact Hp|]. split_and!.
  - exact Hcore.
  - intros Hfail x Hx.
    destruct (Hcore x Hx) as [?|[?|(k & p0 & i & _ & _ & _ & Hnf & _)]]; auto.
    by destruct Hnf.
  - intros Hnone x Hx.
    destruct (Hcore x Hx) as [?|[?|(k & p0 & i & Hkin & Hkst & Hkn & _)]]; auto.
    by destruct (Hnone k Hkin Hkst).
  - intros A Hwf HA Hrun Hname Hfail.
    assert (Hk : known_step_of (get_steps_by_deployment_id d db) step = Some A).
    { fold steps. rewrite HA. unfold known_step_of, running_steps, find_by_name.
      rewrite filter_cons, decide_True, filter_nil by done.
      by rewrite filter_cons, decide_True, filter_nil by done. }
    destruct (process_step_known _ _ now _ _ _ Hs Hf Hd Hk)
      as (db2 & Hp2 & Hin & HAd & _ & Hlen & _ & Hwfrows).
    rewrite Hp in Hp2. injection Hp2 as -> ->.
    split; [done|]. split; [done|].
    specialize (Hwfrows Hwf).
    assert (Hnp : next_pending_step_of
                    (find_by_name (step_name step)
                       (running_steps (get_steps_by_deployment_id d db)))
                    (pending_steps (get_steps_by_deployment_id d db)) step = None).
    { unfold next_pending_step_of. destruct (find_by_name _ _); [|done].
      destruct (pending_steps _); [done|]. by rewrite decide_False by (intros E; by apply E). }
    rewrite Hnp in Hwfrows.
    rewrite (rows_as_fmap
               (fun x => if decide (x = A) then overwrite A step now else x) db db2 Hlen).
    + rewrite get_steps_fmap.
      * fold steps. rewrite HA. simpl. by rewrite decide_True.
      * intros x Hx. by case_decide; subst.
    + intros i x Hx. rewrite (Hwfrows i x Hx). by repeat case_decide.
  - intros Hnorun y Hy Hyst Hyn.
    pose proof (proj2 (find_running_None (step_name step) steps) Hnorun) as Hnone.
    destruct (find_pending_exists (step_name step) steps y Hy Hyst Hyn) as [k Hpend].
    destruct (find_pending_first _ _ _ Hpend) as (i & Hi & Hkst & Hkn & Hfirst).
    exists k, i.
    assert (Hk : known_step_of (get_steps_by_deployment_id d db) step = Some k).
    { fold steps. unfold known_step_of. by rewrite Hnone. }
    rewrite (process_step_running _ _ _ _ _ Hs Hf Hd) in Hp. cbv zeta in Hp.
    rewrite Hk in Hp. fold steps in Hp. rewrite Hnone in Hp. simpl in Hp.
    injection Hp as <- <-. split_and!; try done.
    + by rewrite length_fmap.
    + intros i' x Hx. by rewrite list_lookup_fmap, Hx.
Qed.

Lemma process_step_promotes_only_after_running_success_witness :
  (exists r db',
     process_step ProcessStepExamples.dep (ProcessStepExamples.report "A" "failure" "boom") 200
                  [ProcessStepExamples.row 1 "A" "running"] = (Ok r, db') /\
     step_state r = "failure" /\
     get_steps_by_deployment_id 7 db' = [r]) /\
  (exists r db',
     process_step ProcessStepExamples.dep (ProcessStepExamples.report "C" "success" "") 200
                  ProcessStepExamples.abc = (Ok r, db') /\
     db' !! 1%nat = Some (ProcessStepExamples.row 2 "B" "pending")).
Proof.
  split.
  - destruct (process_step_promotes_only_after_running_success ProcessStepExamples.dep
                (ProcessStepExamples.report "A" "failure" "boom") 200
                [ProcessStepExamples.row 1 "A" "running"] 7)
      as (r & db' & Hp & _ & _ & _ & HA & _).
    + simpl. eauto.
    + reflexivity.
    + reflexivity.
    + exists r, db'. split; [exact Hp|].
      destruct (HA (ProcessStepExamples.row 1 "A" "running")) as (_ & Hst & Hsteps).
      * split; [repeat constructor; simpl; eauto|].
        simpl. apply NoDup_singleton.
      * reflexivity.
      * reflexivity.
      * reflexivity.
      * reflexivity.
      * split; assumption.
  - destruct (process_step_promotes_only_after_running_success ProcessStepExamples.dep
                (ProcessStepExamples.report "C" "success" "") 200
                ProcessStepExamples.abc 7)
      as (r & db' & Hp & Hrows & _).
    + simpl. eauto.
    + reflexivity.
    + reflexivity.
    + exists r, db'. split; [exact Hp|].
      vm_compute in Hp. injection Hp as <- <-. reflexivity.
Defined.


(** C1: on a started, unfinished deployment whose persisted steps are
    [[A:running, B:pending, C:pending]], a success report named like [A]
    returns [A] with state success, [finished = now] and the report's
    message (and start); the table then holds exactly that [A], [B] set to
    running and [C] as it was, and every row of other deployments is left
    alone. *)
Theorem process_step_advances self step now db d A B C :
  is_Some (dep_started self) -> dep_finished self = None -> dep_id self = Some d ->
  store_wf db ->
  get_steps_by_deployment_id d db = [A; B; C] ->
  step_state A = "running" -> step_state B = "pending" -> step_state C = "pending" ->
  step_name step = step_name A -> step_state step = "success" ->
  let A' := mkStep (step_id A) (step_name A) (step_started step) (Some now) "success"
                   (step_deployment_id A) (step_message step) in
  let B' := set_state "running" B in
  exists db',
    process_step self step now db = (Ok A', db') /\
    get_steps_by_deployment_id d db' = [A'; B'; C] /\
    length db' = length db /\
    (forall i x, db !! i = Some x ->
       db' !! i = Some (if decide (x = A) then A'
                        else if decide (x = B) then B' else x)).
Proof.
  intros Hs Hf Hd Hwf Hsteps HA HB HC Hname Hst A' B'.
  assert (Hrun : running_steps [A; B; C] = [A]).
  { unfold running_steps. rewrite filter_cons, decide_True by done.
    rewrite filter_cons, decide_False by (rewrite HB; done).
    rewrite filter_cons, decide_False by (rewrite HC; done). done. }
  assert (Hpend : pending_steps [A; B; C] = [B; C]).
  { unfold pending_steps. rewrite filter_cons, decide_False by (rewrite HA; done).
    rewrite filter_cons, decide_True by done.
    rewrite filter_cons, decide_True by done. done. }
  assert (Hfind : find_by_name (step_name step) [A] = Some A).
  { unfold find_by_name. by rewrite filter_cons, decide_True by done. }
  assert (Hk : known_step_of (get_steps_by_deployment_id d db) step = Some A).
  { rewrite Hsteps. unfold known_step_of. by rewrite Hrun, Hfind. }
  destruct (process_step_known _ _ now _ _ _ Hs Hf Hd Hk)
    as (db' & Hp & Hin & HAd & _ & Hlen & _ & Hrows).
  specialize (Hrows Hwf). rewrite Hsteps, Hrun, Hpend, Hfind in Hrows.
  assert (Hnp : next_pending_step_of (Some A) [B; C] step = Some B).
  { unfold next_pending_step_of. rewrite decide_True; [done|]. by rewrite Hst. }
  rewrite Hnp in Hrows.
  assert (Hov : overwrite A step now = A').
  { unfold overwrite, A'. simpl. by rewrite Hst. }
  rewrite Hov in Hp, Hrows.
  assert (Hids : NoDup (step_id <$> [A; B; C])).
  { rewrite <- Hsteps. by apply store_wf_steps_NoDup. }
  assert (HAB : A <> B) by (intros ->; congruence).
  assert (HAC : A <> C) by (intros ->; congruence).
  assert (HBC : B <> C).
  { intros ->. simpl in Hids. apply NoDup_cons in Hids as [_ Hids].
    apply NoDup_cons in Hids as [Hni _]. apply Hni, elem_of_cons; auto. }
  assert (HBd : step_deployment_id B = Some d).
  { apply (get_steps_elem d db B). rewrite Hsteps. set_solver. }
  assert (Hrows' : forall i x, db !! i = Some x ->
            db' !! i = Some (if decide (x = A) then A'
                             else if decide (x = B) then B' else x)).
  { intros i x Hx. rewrite (Hrows i x Hx). f_equal.
    repeat case_decide; simplify_eq; done. }
  exists db'. split; [exact Hp|]. split; [|split; [exact Hlen|exact Hrows']].
  rewrite (rows_as_fmap _ db db' Hlen Hrows').
  rewrite get_steps_fmap.
  - rewrite Hsteps. simpl.
    rewrite decide_True by done.
    rewrite (decide_False (P := B = A)) by done. rewrite decide_True by done.
    rewrite (decide_False (P := C = A)) by done.
    by rewrite (decide_False (P := C = B)) by done.
  - intros x Hx. repeat case_decide; subst; done.
Qed.

Lemma process_step_advances_witness :
  exists db',
    process_step ProcessStepExamples.dep (ProcessStepExamples.report "A" "success" "done")
                 200 ProcessStepExamples.abc
    = (Ok (mkStep (Some 1) "A" None (Some 200) "success" (Some 7) "done"), db') /\
    get_steps_by_deployment_id 7 db'
    = [mkStep (Some 1) "A" None (Some 200) "success" (Some 7) "done";
       ProcessStepExamples.row 2 "B" "running"; ProcessStepExamples.row 3 "C" "pending"].
Proof.
  destruct (process_step_advances ProcessStepExamples.dep
              (ProcessStepExamples.report "A" "success" "done") 200
              ProcessStepExamples.abc 7
              (ProcessStepExamples.row 1 "A" "running")
              (ProcessStepExamples.row 2 "B" "pending")
              (ProcessStepExamples.row 3 "C" "pending"))
    as (db' & Hp & Hsteps & _).
  - simpl. eauto.
  - reflexivity.
  - reflexivity.
  - split.
    + repeat constructor; simpl; eauto.
    + by apply (bool_decide_unpack _).
  - reflexivity.
  - reflexivity.
  - reflexivity.
  - reflexivity.
  - reflexivity.
  - reflexivity.
  - exists db'. split; [exact Hp|exact Hsteps].
Defined.

(** The scenarios of the specification, evaluated. *)

Example abc_success :
  process_step ProcessStepExamples.dep (ProcessStepExamples.report "A" "success" "done")
               200 ProcessStepExamples.abc
  = (Ok (mkStep (Some 1) "A" None (Some 200) "success" (Some 7) "done"),
     [mkStep (Some 1) "A" None (Some 200) "success" (Some 7) "done";
      ProcessStepExamples.row 2 "B" "running"; ProcessStepExamples.row 3 "C" "pending"]).
Proof. vm_compute. reflexivity. Qed.

Example a_failure :
  process_step ProcessStepExamples.dep (ProcessStepExamples.report "A" "failure" "boom") 200
               [ProcessStepExamples.row 1 "A" "running"; ProcessStepExamples.row 2 "B" "pending"]
  = (Ok (mkStep (Some 1) "A" None (Some 200) "failure" (Some 7) "boom"),
     [mkStep (Some 1) "A" None (Some 200) "failure" (Some 7) "boom";
      ProcessStepExamples.row 2 "B" "pending"]).
Proof. vm_compute. reflexivity. Qed.

Example pending_direct :
  process_step ProcessStepExamples.dep (ProcessStepExamples.report "B" "success" "") 200
               [ProcessStepExamples.row 2 "B" "pending"; ProcessStepExamples.row 3 "C" "pending"]
  = (Ok (mkStep (Some 2) "B" None (Some 200) "success" (Some 7) ""),
     [mkStep (Some 2) "B" None (Some 200) "success" (Some 7) "";
      ProcessStepExamples.row 3 "C" "pending"]).
Proof. vm_compute. reflexivity. Qed.

Example unknown_on_empty :
  process_step ProcessStepExamples.dep (ProcessStepExamples.report "X" "running" "") 200 []
  = (Ok (mkStep (Some 1) "X" None (Some 200) "running" (Some 7) ""),
     [mkStep (Some 1) "X" None (Some 200) "running" (Some 7) ""]).
Proof. vm_compute. reflexivity. Qed.

(** * Typed tokens: [auth.py] *)

Section AuthFacts.

Variable mac : string -> string -> dict -> string.
Variable settings : Settings.

(** The lifetime [create_access_token] gives a token: [None] and the zero
    [timedelta] stand for the default. *)
Lemma create_access_token_Ok payload expires_delta utcnow :
  expires_delta <> Some 0 ->
  in_datetime_range (utcnow + default default_expiry expires_delta) ->
  create_access_token mac settings payload expires_delta utcnow
  = Ok (jwt_encode mac
          (<["exp" := VInt (utcnow + default default_expiry expires_delta)]> payload)
          (secret_key settings) (token_sign_algorithm settings)).
Proof.
  intros Hnz Hr. unfold create_access_token, datetime_add.
  destruct expires_delta as [delta|]; simpl in *.
  - rewrite decide_True by congruence. by rewrite decide_True.
  - by rewrite decide_True.
Qed.

(** Every token issued is signed over the payload with an [exp] in range
    written over it. *)
Lemma create_access_token_inv payload expires_delta utcnow t :
  create_access_token mac settings payload expires_delta utcnow = Ok t ->
  exists expire,
    in_datetime_range expire /\
    expire = utcnow + match expires_delta with
                      | Some delta => if decide (delta = 0) then default_expiry else delta
                      | None => default_expiry
                      end /\
    t = jwt_encode mac (<["exp" := VInt expire]> payload)
          (secret_key settings) (token_sign_algorithm settings).
Proof.
  unfold create_access_token, datetime_add.
  destruct expires_delta as [delta|].
  - destruct (decide (delta = 0)) as [->|Hd].
    + rewrite decide_False by (intros E; by apply E).
      case_decide; [|done]. intros [= <-]. eauto.
    + rewrite decide_True by done.
      case_decide; [|done]. intros [= <-]. eauto.
  - case_decide; [|done]. intros [= <-]. eauto.
Qed.

Lemma token_to_payload_encoded payload expire now :
  token_to_payload mac settings
    (jwt_encode mac (<["exp" := VInt expire]> payload)
       (secret_key settings) (token_sign_algorithm settings)) now
  = if decide (expire < now) then Err InvalidToken
    else Ok (<["exp" := VInt expire]> payload).
Proof.
  unfold token_to_payload, jwt_decode, jwt_encode. simpl.
  rewrite decide_True by done. by rewrite lookup_insert_eq.
Qed.

(** Whatever is decoded with a type other than the expected one is turned
    away before any lookup. *)
Lemma resolve_as_wrong_type expected t uow now payload :
  token_to_payload mac settings t now = Ok payload ->
  payload !! "type" <> Some (VStr (type_name expected)) ->
  resolve_as mac settings expected t uow now = (Some WrongTokenType, []).
Proof.
  intros Hdec Hty.
  destruct expected; simpl in *;
    unfold user_from_token, service_from_token, deployment_from_token;
    rewrite Hdec; by rewrite decide_True.
Qed.

Lemma type_name_inj t1 t2 : type_name t1 = type_name t2 -> t1 = t2.
Proof. by destruct t1, t2. Qed.

End AuthFacts.

(** C5, as stated, fails three times over.  The claims that come back
    carry the [exp] entry that [create_access_token] added, so they are not
    the input claims; a zero [ttl] is taken for no [ttl], so the token
    issued at 1000 with [ttl = 0] still resolves at 1001; and a [ttl] of
    three million days leads past the last date a [datetime] holds, so no
    token is issued at all. *)
Lemma token_round_trip_not_identity :
  valid_claims AuthExamples.user_claims /\
  (exists t,
     create_access_token AuthExamples.mac0 AuthExamples.settings0
       AuthExamples.user_claims (Some 300) 1000 = Ok t /\
     token_to_payload AuthExamples.mac0 AuthExamples.settings0 t 1000
       = Ok (<["exp" := VInt 1300]> AuthExamples.user_claims) /\
     token_to_payload AuthExamples.mac0 AuthExamples.settings0 t 1000
       <> Ok AuthExamples.user_claims) /\
  (exists t,
     create_access_token AuthExamples.mac0 AuthExamples.settings0
       AuthExamples.user_claims (Some 0) 1000 = Ok t /\
     token_to_payload AuthExamples.mac0 AuthExamples.settings0 t 1001
       = Ok (<["exp" := VInt 1900]> AuthExamples.user_claims) /\
     token_to_payload AuthExamples.mac0 AuthExamples.settings0 t 1001
       <> Err InvalidToken) /\
  create_access_token AuthExamples.mac0 AuthExamples.settings0
    AuthExamples.user_claims (Some (3000000 * 86400)) 1000 = Err OverflowError.
Proof.
  split_and!.
  - by apply (bool_decide_unpack _).
  - eexists. split; [vm_compute; reflexivity|].
    assert (H1 : token_to_payload AuthExamples.mac0 AuthExamples.settings0
                   (jwt_encode AuthExamples.mac0
                      (<["exp" := VInt 1300]> AuthExamples.user_claims)
                      (secret_key AuthExamples.settings0)
                      (token_sign_algorithm AuthExamples.settings0)) 1000
                 = Ok (<["exp" := VInt 1300]> AuthExamples.user_claims)).
    { rewrite token_to_payload_encoded. by rewrite decide_False by lia. }
    split; [exact H1|].
    intros E. vm_compute in E. discriminate E.
  - eexists. split; [vm_compute; reflexivity|].
    split; [vm_compute; reflexivity|]. vm_compute. discriminate.
  - vm_compute. reflexivity.
Qed.

(** C5, amended: for every valid claims map containing a type field and
    every [ttl] other than zero, or no [ttl], which stands for 15 minutes:
    when [issued + ttl] is a date a [datetime] holds, a token is issued at
    [issued]; resolved no later than [issued + ttl] it gives back the input
    claims with [exp = issued + ttl] added (every other key as in the
    input, so a [type] equal to the expected one passes the type check),
    and resolved after [issued + ttl] it fails with InvalidToken; when
    [issued + ttl] is no such date, issuing raises OverflowError. *)
Theorem create_access_token_round_trip mac settings claims expires_delta issued now :
  valid_claims claims -> is_Some (claims !! "type") ->
  expires_delta <> Some 0 ->
  let ttl := default default_expiry expires_delta in
  default_expiry = 15 * 60 /\
  (~ in_datetime_range (issued + ttl) ->
     create_access_token mac settings claims expires_delta issued = Err OverflowError) /\
  (in_datetime_range (issued + ttl) ->
   exists t,
     create_access_token mac settings claims expires_delta issued = Ok t /\
     (now <= issued + ttl ->
        token_to_payload mac settings t now = Ok (<["exp" := VInt (issued + ttl)]> claims) /\
        (forall key, key <> "exp" ->
           (<["exp" := VInt (issued + ttl)]> claims) !! key = claims !! key) /\
        (forall expected uow,
           claims !! "type" = Some (VStr (type_name expected)) ->
           (resolve_as mac settings expected t uow now).1 <> Some InvalidToken /\
           (resolve_as mac settings expected t uow now).1 <> Some WrongTokenType)) /\
     (issued + ttl < now -> token_to_payload mac settings t now = Err InvalidToken)).
Proof.
  intros Hvalid Htype Hnz ttl. split; [reflexivity|]. split.
  { intros Hout. unfold create_access_token, datetime_add. subst ttl.
    destruct expires_delta as [delta|]; simpl in Hout.
    - rewrite decide_True by congruence. by rewrite decide_False.
    - by rewrite decide_False. }
  intros Hrange.
  eexists. split; [by apply create_access_token_Ok|].
  fold ttl. split.
  - intros Hle.
    assert (Hdec : token_to_payload mac settings
                     (jwt_encode mac (<["exp" := VInt (issued + ttl)]> claims)
                        (secret_key settings) (token_sign_algorithm settings)) now
                   = Ok (<["exp" := VInt (issued + ttl)]> claims)).
    { rewrite token_to_payload_encoded. by rewrite decide_False by lia. }
    split; [exact Hdec|]. split.
    + intros key Hk. by rewrite lookup_insert_ne.
    + intros expected uow Hty.
      assert (Hty' : (<["exp" := VInt (issued + ttl)]> claims) !! "type"
                     = Some (VStr (type_name expected)))
        by (by rewrite lookup_insert_ne).
      destruct expected; simpl in *;
        unfold user_from_token, service_from_token, deployment_from_token;
        rewrite Hdec; rewrite decide_False by (rewrite Hty'; auto).
      * destruct (users_get uow _); simpl; split; discriminate.
      * destruct (_ !! "service") as [servicename|];
          [destruct (services_get_by_name uow servicename)|]; simpl; split; discriminate.
      * destruct (_ !! "deployment") as [deployment_id|];
          [destruct (deployments_get uow deployment_id)|]; simpl; split; discriminate.
  - intros Hlt. rewrite token_to_payload_encoded. by rewrite decide_True by lia.
Qed.

Lemma create_access_token_round_trip_witness :
  exists t,
    create_access_token AuthExamples.mac0 AuthExamples.settings0
      AuthExamples.user_claims (Some 300) 1000 = Ok t /\
    token_to_payload AuthExamples.mac0 AuthExamples.settings0 t 1200
    = Ok (<["exp" := VInt 1300]> AuthExamples.user_claims).
Proof.
  destruct (create_access_token_round_trip AuthExamples.mac0 AuthExamples.settings0
              AuthExamples.user_claims (Some 300) 1000 1200)
    as (_ & _ & Hissue).
  - by apply (bool_decide_unpack _).
  - by eexists.
  - discriminate.
  - destruct Hissue as (t & Ht & Hok & _); [by apply (bool_decide_unpack _)|].
    exists t. split; [exact Ht|].
    destruct Hok as [Hdec _]; [simpl; lia|]. exact Hdec.
Defined.

(** C6: a token that decodes to claims of type [t1] and is resolved as a
    different type [t2] fails with WrongTokenType, which is not
    InvalidToken, and no repository call has been made by then. *)
Theorem wrong_token_type_before_lookup mac settings (t1 t2 : token_type) t uow now payload :
  t1 <> t2 ->
  token_to_payload mac settings t now = Ok payload ->
  payload !! "type" = Some (VStr (type_name t1)) ->
  resolve_as mac settings t2 t uow now = (Some WrongTokenType, []) /\
  WrongTokenType <> InvalidToken.
Proof.
  intros Hne Hdec Hty. split; [|discriminate].
  apply (resolve_as_wrong_type _ _ _ _ _ _ payload Hdec).
  rewrite Hty. intros [= E]. apply type_name_inj in E. by destruct Hne.
Qed.

Lemma wrong_token_type_before_lookup_witness :
  exists t,
    create_access_token AuthExamples.mac0 AuthExamples.settings0
      AuthExamples.user_claims (Some 300) 1000 = Ok t /\
    resolve_as AuthExamples.mac0 AuthExamples.settings0 TDeployment t
      AuthExamples.uow0 1200
    = (Some WrongTokenType, []).
Proof.
  eexists. split.
  - apply create_access_token_Ok; [discriminate|by apply (bool_decide_unpack _)].
  - apply (wrong_token_type_before_lookup AuthExamples.mac0 AuthExamples.settings0
             TUser TDeployment _ AuthExamples.uow0 1200
             (<["exp" := VInt 1300]> AuthExamples.user_claims)).
    + discriminate.
    + rewrite (token_to_payload_encoded AuthExamples.mac0 AuthExamples.settings0).
      by rewrite decide_False by (simpl; lia).
    + reflexivity.
Defined.

Example user_token_resolves :
  create_access_token AuthExamples.mac0 AuthExamples.settings0
    AuthExamples.user_claims (Some 300) 1000
  = Ok (jwt_encode AuthExamples.mac0 (<["exp" := VInt 1300]> AuthExamples.user_claims)
          "secret" "HS256") /\
  resolve_as AuthExamples.mac0 AuthExamples.settings0 TUser
    (jwt_encode AuthExamples.mac0 (<["exp" := VInt 1300]> AuthExamples.user_claims)
       "secret" "HS256")
    AuthExamples.uow0 1200
  = (None, [UsersGet (Some (VStr "jochen"))]).
Proof. split; vm_compute; reflexivity. Qed.
(** * Delivery with retry: [app/tasks.py] *)

Section DeliveryFacts.

Variable network : nat -> post_outcome.

(** The loop never posts more often than its range is long. *)
Lemma post_loop_attempts range event r st :
  (attempts (post_loop network range event r st).2 <= attempts st + length range)%nat.
Proof.
  revert r st. induction range as [|a range IH]; intros r st; simpl; [lia|].
  destruct (network (attempts st)); simpl; [|lia..].
  etransitivity; [apply IH|]. simpl. lia.
Qed.

(** Refused [n] times in a row, the loop leaves [r] as it found it. *)
Lemma post_loop_refused range event r st :
  (forall n, (n < length range)%nat -> network (attempts st + n) = ConnectError) ->
  post_loop network range event r st
  = (Ok r, mkTaskState (attempts st + length range)
                       (sleeps st ++ replicate (length range) 3)
                       (delivered st) (discarded st)).
Proof.
  revert st. induction range as [|a range IH]; intros st Href; simpl.
  - rewrite Nat.add_0_r, app_nil_r. by destruct st.
  - pose proof (Href 0%nat) as H0. rewrite Nat.add_0_r in H0.
    rewrite H0 by (simpl; lia). rewrite IH; simpl.
    + f_equal. f_equal; [lia|]. by rewrite <- app_assoc.
    + intros n Hn. replace (S (attempts st + n))%nat with (attempts st + S n)%nat by lia.
      apply Href. simpl. lia.
Qed.

(** Three refusals in a row: the event is not delivered and
    [process_deploy_event] ends in the read of the unassigned [r]. *)
Lemma process_deploy_event_exhausted event st :
  (forall n, (n < 3)%nat -> network (attempts st + n) = ConnectError) ->
  process_deploy_event network event st
  = (Err UnboundLocalError,
     mkTaskState (attempts st + 3) (sleeps st ++ [3; 3; 3]) (delivered st) (discarded st)).
Proof.
  intros Href. unfold process_deploy_event.
  by rewrite (post_loop_refused (seq 0 3) event None st Href).
Qed.

(** That error is not caught by the loop of [run_deploy]: the lines after
    the undelivered event are never read. *)
Lemma run_deploy_exhausted bytes_decode json_loads data decoded message rest st :
  bytes_decode data = Some decoded ->
  json_loads decoded = Some message ->
  (forall n, (n < 3)%nat -> network (attempts st + n) = ConnectError) ->
  run_deploy network bytes_decode json_loads (data :: rest) st
  = (Err UnboundLocalError,
     mkTaskState (attempts st + 3) (sleeps st ++ [3; 3; 3]) (delivered st) (discarded st)).
Proof.
  intros Hd Hl Href. simpl. rewrite Hd, Hl.
  by rewrite (process_deploy_event_exhausted message st Href).
Qed.

End DeliveryFacts.

(** C8: two refused connections followed by an answer make three POSTs and
    one delivered event, and the loop goes on.  Three refused connections
    make three POSTs and no delivered event, but then the task does not
    drop the event and go on: [process_deploy_event] raises
    [UnboundLocalError] on [r.status_code], [run_deploy] catches
    [JSONDecodeError] only, and the line that follows is never forwarded. *)
Theorem delivery_retry_exhaustion_escapes :
  process_deploy_event TaskExamples.flaky TaskExamples.event_a initial_task_state
    = (Ok tt, mkTaskState 3 [3; 3] [TaskExamples.event_a] []) /\
  run_deploy TaskExamples.flaky TaskExamples.utf8 TaskExamples.loads
             ["first"; "garbage"; "second"] initial_task_state
    = (Ok tt, mkTaskState 4 [3; 3] [TaskExamples.event_a; TaskExamples.event_a] ["garbage"]) /\
  process_deploy_event TaskExamples.down TaskExamples.event_a initial_task_state
    = (Err UnboundLocalError, mkTaskState 3 [3; 3; 3] [] []) /\
  run_deploy TaskExamples.down TaskExamples.utf8 TaskExamples.loads ["first"; "second"]
             initial_task_state
    = (Err UnboundLocalError, mkTaskState 3 [3; 3; 3] [] []).
Proof.
  split; [reflexivity|]. split; [reflexivity|]. split.
  - exact (process_deploy_event_exhausted TaskExamples.down TaskExamples.event_a
             initial_task_state (fun _ _ => eq_refl)).
  - exact (run_deploy_exhausted TaskExamples.down TaskExamples.utf8 TaskExamples.loads
             "first" "first" TaskExamples.event_a ["second"] initial_task_state
             eq_refl eq_refl (fun _ _ => eq_refl)).
Qed.

(** * The steps to do: [views.py] and [ServicePydantic.get_steps] *)

Section StepsToDoFacts.

Variable last : Z -> option Z.




End StepsToDoFacts.




Example steps_from_configuration :
  get_steps_to_do_from_service StepsExamples.last_ok
    (mkService (Some 9) "new" StepsExamples.configured) (Some StepsExamples.recorded)
  = Ok [mkStep None "deploy" None None "pending" None ""].
Proof. vm_compute. reflexivity. Qed.

Example steps_placeholder :
  get_steps_to_do_from_service StepsExamples.last_ok (mkService None "new" ∅) None
  = Ok [mkStep None "Unknown step" None None "pending" None ""].
Proof. vm_compute. reflexivity. Qed.

(** * Reconciling services: [sync_services] *)

Section NameLookup.

Implicit Types (l : list Service) (n : string).

Lemma name_lookup_snoc l x :
  name_lookup (l ++ [x]) = <[svc_name x := length l]> (name_lookup l).
Proof.
  unfold name_lookup. rewrite imap_app, foldl_app. simpl. by rewrite Nat.add_0_r.
Qed.

Lemma name_lookup_None l n :
  name_lookup l !! n = None <-> n ∉ svc_name <$> l.
Proof.
  induction l as [|x l IH] using rev_ind.
  - unfold name_lookup. simpl. rewrite lookup_empty. split; [|done].
    intros _ Hin. by apply elem_of_nil in Hin.
  - rewrite name_lookup_snoc, fmap_app, lookup_insert. simpl.
    rewrite elem_of_app, list_elem_of_singleton. case_decide as E.
    + split; [done|]. intros Hn. destruct Hn. by right.
    + rewrite IH. split; [|tauto]. intros Hn [?|?]; [done|]. by subst.
Qed.

Lemma name_lookup_Some l n i :
  name_lookup l !! n = Some i -> exists t, l !! i = Some t /\ svc_name t = n.
Proof.
  revert i. induction l as [|x l IH] using rev_ind; intros i.
  - unfold name_lookup. simpl. by rewrite lookup_empty.
  - rewrite name_lookup_snoc, lookup_insert. case_decide as E.
    + intros [= <-]. exists x. split; [|done].
      rewrite lookup_app_r by lia. by rewrite Nat.sub_diag.
    + intros Hl. destruct (IH i Hl) as (t & Ht & Hn). exists t. split; [|done].
      by apply lookup_app_l_Some.
Qed.

Lemma names_inj l i j t t' :
  NoDup (svc_name <$> l) -> l !! i = Some t -> l !! j = Some t' ->
  svc_name t = svc_name t' -> i = j.
Proof.
  intros Hnd Hi Hj Hn.
  apply (NoDup_lookup (svc_name <$> l) i j (svc_name t) Hnd).
  - by rewrite list_lookup_fmap, Hi.
  - by rewrite list_lookup_fmap, Hj, Hn.
Qed.

Lemma name_lookup_NoDup l i t :
  NoDup (svc_name <$> l) -> l !! i = Some t -> name_lookup l !! svc_name t = Some i.
Proof.
  intros Hnd Hi. destruct (name_lookup l !! svc_name t) as [j|] eqn:E.
  - destruct (name_lookup_Some _ _ _ E) as (t' & Hj & Hn).
    f_equal. by apply (names_inj l j i t' t).
  - apply name_lookup_None in E. destruct E.
    apply list_elem_of_fmap. exists t. split; [done|]. apply list_elem_of_lookup; eauto.
Qed.

(** With unique names the dictionary finds the one service of that name. *)
Lemma head_filter_name l n :
  NoDup (svc_name <$> l) ->
  head (filter (fun t => svc_name t = n) l) = name_lookup l !! n ≫= (fun i => l !! i).
Proof.
  intros Hnd. destruct (name_lookup l !! n) as [i|] eqn:E; simpl.
  - destruct (name_lookup_Some _ _ _ E) as (t & Hi & Hn). rewrite Hi.
    destruct (head _) as [t'|] eqn:Hh.
    + apply head_Some_elem_of in Hh. apply list_elem_of_filter in Hh as [Hn' Hin].
      apply list_elem_of_lookup in Hin as [j Hj].
      assert (j = i) as -> by (apply (names_inj l j i t' t); congruence).
      congruence.
    + apply head_None in Hh.
      assert (Hin : t ∈ filter (fun t => svc_name t = n) l).
      { apply list_elem_of_filter. split; [done|]. apply list_elem_of_lookup; eauto. }
      rewrite Hh in Hin. by apply elem_of_nil in Hin.
  - apply name_lookup_None in E. apply head_None.
    destruct (filter _ l) as [|t rest] eqn:Hf; [done|].
    assert (Hin : t ∈ filter (fun t => svc_name t = n) l) by (rewrite Hf; apply elem_of_cons; auto).
    apply list_elem_of_filter in Hin as [Hn Hin]. destruct E.
    apply list_elem_of_fmap. by exists t.
Qed.

End NameLookup.

Section SyncVisit.

Variable lookup : gmap string nat.

Lemma sync_visit_absent (heap : list Service) (updated : list service_ref) s :
  lookup !! svc_name s = None ->
  sync_visit lookup (heap, updated) s = (heap, updated ++ [SourceObj s]).
Proof. intros E. unfold sync_visit. by rewrite E. Qed.

Lemma sync_visit_differs (heap : list Service) (updated : list service_ref) s i t :
  lookup !! svc_name s = Some i -> heap !! i = Some t -> svc_data t <> svc_data s ->
  sync_visit lookup (heap, updated) s
  = (<[i := set_data (svc_data s) t]> heap, updated ++ [TargetObj i]).
Proof. intros E Hi Hd. unfold sync_visit. rewrite E, Hi. by rewrite decide_True. Qed.

Lemma sync_visit_same (heap : list Service) (updated : list service_ref) s i t :
  lookup !! svc_name s = Some i -> heap !! i = Some t -> svc_data t = svc_data s ->
  sync_visit lookup (heap, updated) s = (heap, updated).
Proof.
  intros E Hi Hd. unfold sync_visit. rewrite E, Hi.
  rewrite decide_False; [done|]. intros Hne. by apply Hne.
Qed.

End SyncVisit.

Lemma omap_deref_stable (heap heap1 : list Service) (updated : list service_ref) :
  (forall r, r ∈ updated -> deref heap1 r = deref heap r) ->
  omap (deref heap1) updated = omap (deref heap) updated.
Proof.
  induction updated as [|r updated IH]; intros Hst; [done|].
  cbn [omap list_omap]. rewrite (Hst r) by (apply elem_of_cons; auto).
  rewrite IH; [done|]. intros r' Hr'. apply Hst, elem_of_cons; auto.
Qed.

Section SyncLoop.

Variable target : list Service.
Hypothesis target_names : NoDup (svc_name <$> target).

(** The first loop, from any state in which the services still to visit
    have their targets untouched and no target already listed is due again:
    the values listed so far stand, and each visited service contributes
    what the specification says. *)
Lemma sync_loop todo : forall (heap : list Service) (updated : list service_ref),
  NoDup (svc_name <$> todo) ->
  length heap = length target ->
  (forall i t, target !! i = Some t -> svc_name t ∈ svc_name <$> todo -> heap !! i = Some t) ->
  (forall i t, TargetObj i ∈ updated -> target !! i = Some t ->
               svc_name t ∉ svc_name <$> todo) ->
  omap (deref (foldl (sync_visit (name_lookup target)) (heap, updated) todo).1)
       (foldl (sync_visit (name_lookup target)) (heap, updated) todo).2
    = omap (deref heap) updated ++ omap (updated_of target) todo /\
  (forall i t, target !! i = Some t -> svc_name t ∉ svc_name <$> todo ->
     (foldl (sync_visit (name_lookup target)) (heap, updated) todo).1 !! i = heap !! i).
Proof.
  induction todo as [|s todo IH]; intros heap updated Hnd Hlen Hfresh Hrefs.
  - simpl. by rewrite app_nil_r.
  - rewrite fmap_cons in Hnd. apply NoDup_cons in Hnd as [Hs Hnd].
    cbn [foldl omap list_omap].
    assert (Hhead := head_filter_name target (svc_name s) target_names).
    assert (Hin_s : forall n, n ∈ svc_name <$> todo -> n ∈ svc_name <$> (s :: todo))
      by (intros n Hn; rewrite fmap_cons; apply elem_of_cons; auto).
    destruct (name_lookup target !! svc_name s) as [i|] eqn:El.
    + destruct (name_lookup_Some _ _ _ El) as (t & Hi & Hn).
      assert (Hheap : heap !! i = Some t).
      { apply Hfresh; [done|]. rewrite Hn, fmap_cons. apply elem_of_cons; auto. }
      simpl in Hhead. rewrite Hi in Hhead.
      unfold updated_of at 1. rewrite Hhead.
      destruct (decide (svc_data t ≠ svc_data s)) as [Hdiff|Hsame].
      * rewrite (sync_visit_differs _ _ _ _ _ _ El Hheap Hdiff).
        set (heap1 := <[i := set_data (svc_data s) t]> heap).
        assert (Hother : forall j t', target !! j = Some t' -> svc_name t' <> svc_name s ->
                                      heap1 !! j = heap !! j).
        { intros j t' Hj Hne. subst heap1. apply list_lookup_insert_ne.
          intros <-. rewrite Hi in Hj. injection Hj as <-. by rewrite Hn in Hne. }
        destruct (IH heap1 (updated ++ [TargetObj i])) as [IH1 IH2].
        -- done.
        -- subst heap1. by rewrite length_insert.
        -- intros j t' Hj Hin. rewrite (Hother j t' Hj).
           ++ apply Hfresh; auto.
           ++ intros E. by rewrite E in Hin.
        -- intros j t' Hin Hj. apply elem_of_app in Hin as [Hin|Hin].
           ++ intros Hin'. apply (Hrefs j t' Hin Hj). auto.
           ++ apply list_elem_of_singleton in Hin. injection Hin as ->.
              rewrite Hi in Hj. injection Hj as <-. by rewrite Hn.
        -- split.
           ++ rewrite IH1. rewrite omap_app. cbn [omap list_omap deref].
              assert (Hi1 : heap1 !! i = Some (set_data (svc_data s) t)).
              { subst heap1. apply list_lookup_insert_eq.
                apply lookup_lt_Some in Hheap. lia. }
              rewrite Hi1. rewrite <- app_assoc.
              rewrite (omap_deref_stable heap heap1 updated); [done|].
              intros [s'|j] Hr; [done|]. simpl.
              destruct (decide (j = i)) as [->|Hji]; [|by apply list_lookup_insert_ne].
              destruct (Hrefs i t Hr Hi). rewrite Hn, fmap_cons.
              apply elem_of_cons; auto.
           ++ intros j t' Hj Hnin. rewrite fmap_cons in Hnin.
              apply not_elem_of_cons in Hnin as [Hne Hnin].
              rewrite (IH2 j t' Hj Hnin). by apply (Hother j t').
      * assert (Hsame' : svc_data t = svc_data s) by (by destruct (decide (svc_data t = svc_data s)); [|destruct Hsame]).
        rewrite (sync_visit_same _ _ _ _ _ _ El Hheap Hsame').
        destruct (IH heap updated) as [IH1 IH2].
        -- done.
        -- done.
        -- intros j t' Hj Hin. apply Hfresh; auto.
        -- intros j t' Hin Hj Hin'. apply (Hrefs j t' Hin Hj). auto.
        -- split; [exact IH1|].
           intros j t' Hj Hnin. rewrite fmap_cons in Hnin.
           apply not_elem_of_cons in Hnin as [Hne Hnin]. by apply (IH2 j t').
    + simpl in Hhead. unfold updated_of at 1. rewrite Hhead.
      rewrite (sync_visit_absent _ _ _ _ El).
      destruct (IH heap (updated ++ [SourceObj s])) as [IH1 IH2].
      * done.
      * done.
      * intros j t' Hj Hin. apply Hfresh; auto.
      * intros j t' Hin Hj. apply elem_of_app in Hin as [Hin|Hin].
        -- intros Hin'. apply (Hrefs j t' Hin Hj). auto.
        -- by apply list_elem_of_singleton in Hin.
      * split.
        -- rewrite IH1, omap_app. cbn [omap list_omap deref]. by rewrite <- app_assoc.
        -- intros j t' Hj Hnin. rewrite fmap_cons in Hnin.
           apply not_elem_of_cons in Hnin as [Hne Hnin]. by apply (IH2 j t').
Qed.

End SyncLoop.

(** The second loop lists, by reference, the targets absent from the
    source; read in a heap that still holds them, they are those targets. *)
Lemma deleted_deref (source : list Service) (heap : list Service) (l : list Service) :
  forall k : nat,
  (forall j t, l !! j = Some t -> svc_name t ∉ svc_name <$> source ->
               heap !! (k + j)%nat = Some t) ->
  omap (deref heap)
       (omap (fun p : nat * Service =>
                match name_lookup source !! svc_name p.2 with
                | None => Some (TargetObj p.1)
                | Some _ => None
                end)
             (imap (fun j => pair (k + j)%nat) l))
  = filter (fun t => svc_name t ∉ svc_name <$> source) l.
Proof.
  induction l as [|x l IH]; intros k Hheap; [done|].
  rewrite imap_cons. cbn [omap list_omap]. rewrite filter_cons. cbn [fst snd].
  assert (IH' : omap (deref heap)
                  (omap (fun p : nat * Service =>
                           match name_lookup source !! svc_name p.2 with
                           | None => Some (TargetObj p.1)
                           | Some _ => None
                           end)
                        (imap ((fun j => pair (k + j)%nat) ∘ S) l))
                = filter (fun t => svc_name t ∉ svc_name <$> source) l).
  { rewrite (imap_ext _ (fun j => pair (S k + j)%nat)).
    - apply IH. intros j t Hj Hn.
      replace (S k + j)%nat with (k + S j)%nat by lia. by apply Hheap.
    - intros j y _. simpl. f_equal. lia. }
  destruct (name_lookup source !! svc_name x) as [i|] eqn:E.
  - rewrite decide_False.
    + exact IH'.
    + intros Hn. apply name_lookup_None in Hn. congruence.
  - apply name_lookup_None in E. rewrite decide_True by done.
    cbn [omap list_omap deref]. rewrite (Hheap 0%nat x eq_refl E). by rewrite IH'.
Qed.

(** On lists with unique names the function computes the specified
    reconciliation. *)
Lemma sync_services_is_spec source target :
  NoDup (svc_name <$> source) -> NoDup (svc_name <$> target) ->
  sync_services source target = sync_services_spec source target.
Proof.
  intros Hs Ht. unfold sync_services, sync_services_spec, sync_services_run.
  destruct (sync_loop target Ht source target [] Hs eq_refl) as [Hup Hheap].
  - done.
  - intros i t Hin. by apply elem_of_nil in Hin.
  - destruct (foldl _ _ source) as [heap updated]. simpl in Hup, Hheap.
    f_equal; [exact Hup|].
    unfold deleted_refs.
    rewrite (imap_ext pair (fun j => pair (0 + j)%nat)) by done.
    apply deleted_deref. intros j t Hj Hn. simpl. by rewrite (Hheap j t Hj Hn).
Qed.

Lemma names_elem_inj (l : list Service) (t t' : Service) :
  NoDup (svc_name <$> l) -> t ∈ l -> t' ∈ l -> svc_name t = svc_name t' -> t = t'.
Proof.
  intros Hnd Ht Ht' Hn.
  apply list_elem_of_lookup in Ht as [i Hi]. apply list_elem_of_lookup in Ht' as [j Hj].
  assert (i = j) as -> by (by apply (names_inj l i j t t')). congruence.
Qed.

(** C7: for lists with unique names, the first list returned holds, in
    source order, every source service whose name is absent from the target,
    unchanged, and for every source service whose name is present in the
    target with data that differ by value the target service with its id
    kept and its data replaced by the source's, and nothing else; the second
    list holds exactly the target services whose name is absent from the
    source. *)
Theorem sync_services_reconciles source target :
  NoDup (svc_name <$> source) -> NoDup (svc_name <$> target) ->
  sync_services source target = sync_services_spec source target /\
  (forall x, x ∈ (sync_services source target).1 <->
     (x ∈ source /\ svc_name x ∉ svc_name <$> target) \/
     (exists s t, s ∈ source /\ t ∈ target /\ svc_name t = svc_name s /\
        svc_data t <> svc_data s /\
        x = mkService (svc_id t) (svc_name t) (svc_data s))) /\
  (forall x, x ∈ (sync_services source target).2 <->
     x ∈ target /\ svc_name x ∉ svc_name <$> source).
Proof.
  intros Hs Ht. pose proof (sync_services_is_spec source target Hs Ht) as Heq.
  split; [exact Heq|]. rewrite Heq. unfold sync_services_spec. simpl. split.
  - intros x. rewrite list_elem_of_omap. unfold updated_of. split.
    + intros (s & Hin & Hup).
      destruct (head _) as [t|] eqn:Hh.
      * apply head_Some_elem_of in Hh. apply list_elem_of_filter in Hh as [Hn Htin].
        case_decide as Hd; [|done]. injection Hup as <-.
        right. by exists s, t.
      * injection Hup as <-. left. split; [done|].
        apply head_None in Hh. intros Hname.
        apply list_elem_of_fmap in Hname as (t & Hn & Htin).
        assert (Hf : t ∈ filter (fun t => svc_name t = svc_name s) target)
          by (by apply list_elem_of_filter).
        rewrite Hh in Hf. by apply elem_of_nil in Hf.
    + intros [[Hin Hn]|(s & t & Hin & Htin & Hn & Hd & ->)].
      * exists x. split; [done|].
        destruct (head _) as [t|] eqn:Hh; [|done].
        apply head_Some_elem_of in Hh. apply list_elem_of_filter in Hh as [Hn' Htin].
        destruct Hn. apply list_elem_of_fmap. by exists t.
      * exists s. split; [done|].
        destruct (head _) as [t'|] eqn:Hh.
        -- apply head_Some_elem_of in Hh. apply list_elem_of_filter in Hh as [Hn' Htin'].
           assert (t' = t) as -> by (apply (names_elem_inj target); congruence).
           by rewrite decide_True.
        -- apply head_None in Hh.
           assert (Hf : t ∈ filter (fun t => svc_name t = svc_name s) target)
             by (by apply list_elem_of_filter).
           rewrite Hh in Hf. by apply elem_of_nil in Hf.
  - intros x. rewrite list_elem_of_filter. tauto.
Qed.

Lemma sync_services_reconciles_witness :
  sync_services [SyncExamples.src_a] [SyncExamples.tgt_a]
    = ([mkService (Some 4) "a" {[ "x" := VInt 1 ]}], []) /\
  sync_services [] [SyncExamples.tgt_plain] = ([], [SyncExamples.tgt_plain]).
Proof.
  split.
  - destruct (sync_services_reconciles [SyncExamples.src_a] [SyncExamples.tgt_a])
      as [Heq _].
    + simpl. apply NoDup_singleton.
    + simpl. apply NoDup_singleton.
    + rewrite Heq. vm_compute. reflexivity.
  - destruct (sync_services_reconciles [] [SyncExamples.tgt_plain]) as [Heq _].
    + simpl. apply NoDup_nil_2.
    + simpl. apply NoDup_singleton.
    + rewrite Heq. vm_compute. reflexivity.
Defined.

(** The two scenarios of the specification, and what sharing does when a
    name occurs twice in the source: the one target object is listed twice
    and read with the data written last. *)
Example sync_update_keeps_id :
  sync_services [SyncExamples.src_a] [SyncExamples.tgt_a]
  = ([mkService (Some 4) "a" {[ "x" := VInt 1 ]}], []).
Proof. vm_compute. reflexivity. Qed.

Example sync_deletion :
  sync_services [] [SyncExamples.tgt_plain] = ([], [SyncExamples.tgt_plain]).
Proof. vm_compute. reflexivity. Qed.

Example sync_duplicate_source_name :
  sync_services [SyncExamples.src_a; mkService None "a" {[ "x" := VInt 3 ]}]
                [SyncExamples.tgt_a]
  = ([mkService (Some 4) "a" {[ "x" := VInt 3 ]};
      mkService (Some 4) "a" {[ "x" := VInt 3 ]}], []).
Proof. vm_compute. reflexivity. Qed.

(** * Further properties of [process_step] *)

Lemma update_rows_ids (s : Step) (db : store) :
  step_id <$> ((fun r => if decide (step_id r = step_id s) then s else r) <$> db)
  = step_id <$> db.
Proof.
  rewrite <- list_fmap_compose. apply list_fmap_ext.
  intros i x _. simpl. by case_decide.
Qed.

Lemma update_step_ids (s : Step) (db : store) :
  step_id <$> (update_step s db).2 = step_id <$> db.
Proof. apply update_rows_ids. Qed.

Lemma store_wf_ids (db : store) :
  store_wf db <-> Forall is_Some (step_id <$> db) /\ NoDup (step_id <$> db).
Proof. unfold store_wf. by rewrite Forall_fmap. Qed.

Lemma next_id_ids (db db' : store) :
  step_id <$> db = step_id <$> db' -> next_id db = next_id db'.
Proof.
  unfold next_id. intros E. f_equal. revert db' E.
  induction db as [|x db IH]; intros [|y db'] E; try done.
  simpl in *. injection E as Hx E. rewrite Hx. f_equal. by apply IH.
Qed.

(** The table before the last write of [process_step]: the promoted step,
    if any, is the only row written, and no primary key has changed. *)
Lemma promoted_table_ids (np : option Step) (db : store) :
  step_id <$> match np with
              | Some p => (update_step (set_state "running" p) db).2
              | None => db
              end
  = step_id <$> db.
Proof. destruct np; [apply update_step_ids|done]. Qed.

(** Primary keys are never rewritten: a matched report leaves the column of
    ids as it was, an unmatched one appends the id of the row it creates;
    and a table with distinct primary keys keeps them distinct when the
    report carries no id of its own. *)
Theorem process_step_keeps_primary_keys self step now db d :
  is_Some (dep_started self) -> dep_finished self = None -> dep_id self = Some d ->
  exists r db',
    process_step self step now db = (Ok r, db') /\
    (is_Some (known_step_of (get_steps_by_deployment_id d db) step) ->
       step_id <$> db' = step_id <$> db) /\
    (known_step_of (get_steps_by_deployment_id d db) step = None ->
       step_id <$> db' = (step_id <$> db) ++ [step_id r]) /\
    (store_wf db -> step_id step = None -> store_wf db').
Proof.
  intros Hs Hf Hd. rewrite (process_step_running _ _ _ _ _ Hs Hf Hd). cbv zeta.
  set (np := next_pending_step_of _ _ step).
  pose proof (promoted_table_ids np db) as Hids.
  set (db1 := match np with Some p => _ | None => db end) in *.
  destruct (known_step_of _ step) as [k|] eqn:Hk.
  - eexists _, _. split; [reflexivity|]. split_and!.
    + intros _. by rewrite (update_rows_ids (overwrite k step now) db1).
    + done.
    + intros Hwf _. apply store_wf_ids.
      rewrite (update_rows_ids (overwrite k step now) db1), Hids.
      by apply store_wf_ids.
  - unfold add_step. eexists _, _. split; [reflexivity|]. split_and!.
    + by intros [? ?].
    + intros _. by rewrite fmap_app, Hids.
    + intros Hwf Hnone. apply store_wf_ids. apply store_wf_ids in Hwf as [Hall Hnd].
      simpl. rewrite Hnone. simpl. rewrite fmap_app, Hids. simpl. split.
      * apply Forall_app. split; [done|]. repeat constructor. by eexists.
      * apply NoDup_app. split_and!; [done| |apply NoDup_singleton].
        intros z Hz Hz'. apply list_elem_of_singleton in Hz'. subst z.
        rewrite (next_id_ids db1 db Hids) in Hz. by apply (next_id_fresh db).
Qed.

Lemma process_step_keeps_primary_keys_witness :
  exists r db',
    process_step ProcessStepExamples.dep (ProcessStepExamples.report "X" "running" "") 200
                 ProcessStepExamples.abc = (Ok r, db') /\
    step_id <$> db' = [Some 1; Some 2; Some 3; Some 4].
Proof.
  destruct (process_step_keeps_primary_keys ProcessStepExamples.dep
              (ProcessStepExamples.report "X" "running" "") 200 ProcessStepExamples.abc 7)
    as (r & db' & Hp & _ & Hnew & _).
  - simpl. eauto.
  - reflexivity.
  - reflexivity.
  - exists r, db'. split; [exact Hp|].
    rewrite Hnew by (vm_compute; reflexivity).
    vm_compute in Hp. injection Hp as <- _. reflexivity.
Defined.

(** With distinct primary keys, a report for deployment [d] leaves the
    steps of every other deployment exactly as they were. *)
Theorem process_step_other_deployments_untouched self step now db d d' :
  is_Some (dep_started self) -> dep_finished self = None -> dep_id self = Some d ->
  store_wf db -> d' <> d ->
  get_steps_by_deployment_id d' (process_step self step now db).2
  = get_steps_by_deployment_id d' db.
Proof.
  intros Hs Hf Hd Hwf Hne.
  destruct (known_step_of (get_steps_by_deployment_id d db) step) as [k|] eqn:Hk.
  - destruct (process_step_known _ _ now _ _ _ Hs Hf Hd Hk)
      as (db' & Hp & Hin & Hkd & Hprom & Hlen & _ & Hrows).
    rewrite Hp. simpl. specialize (Hrows Hwf).
    rewrite (rows_as_fmap _ db db' Hlen Hrows).
    rewrite get_steps_fmap.
    + rewrite <- (list_fmap_id (get_steps_by_deployment_id d' db)) at 2.
      apply list_fmap_ext. intros i x Hx. simpl.
      assert (Hxd : step_deployment_id x = Some d').
      { apply (get_steps_elem d' db x). apply list_elem_of_lookup. eauto. }
      destruct (decide (x = k)) as [->|Hxk]; [congruence|].
      case_decide as Hxp; [|done].
      destruct (Hprom x (eq_sym Hxp)) as (_ & Hxd' & _). congruence.
    + intros x Hx. destruct (decide (x = k)) as [->|Hxk]; [done|].
      by case_decide.
  - rewrite (process_step_running _ _ _ _ _ Hs Hf Hd). cbv zeta. rewrite Hk.
    assert (Hrun : find_by_name (step_name step)
                     (running_steps (get_steps_by_deployment_id d db)) = None).
    { unfold known_step_of in Hk. by destruct (find_by_name _ (running_steps _)). }
    rewrite Hrun. simpl. unfold get_steps_by_deployment_id.
    rewrite filter_app, filter_cons.
    rewrite decide_False; [by rewrite filter_nil, app_nil_r|].
    destruct (step_id step); simpl; congruence.
Qed.

Lemma process_step_other_deployments_untouched_witness :
  get_steps_by_deployment_id 8
    (process_step ProcessStepExamples.dep (ProcessStepExamples.report "A" "success" "") 200
       (ProcessStepExamples.abc ++ [mkStep (Some 9) "A" None None "running" (Some 8) ""])).2
  = [mkStep (Some 9) "A" None None "running" (Some 8) ""].
Proof.
  rewrite (process_step_other_deployments_untouched ProcessStepExamples.dep _ 200 _ 7 8).
  - reflexivity.
  - simpl. eauto.
  - reflexivity.
  - reflexivity.
  - split; [repeat constructor; simpl; eauto|by apply (bool_decide_unpack _)].
  - lia.
Defined.

(** What is returned is in the table. *)
Lemma returned_row self step now db d :
  is_Some (dep_started self) -> dep_finished self = None -> dep_id self = Some d ->
  exists r db',
    process_step self step now db = (Ok r, db') /\
    r ∈ get_steps_by_deployment_id d db' /\
    step_name r = step_name step /\ step_state r = step_state step /\
    step_message r = step_message step /\ step_finished r = Some now /\
    step_started r = step_started step.
Proof.
  intros Hs Hf Hd. rewrite (process_step_running _ _ _ _ _ Hs Hf Hd). cbv zeta.
  set (np := next_pending_step_of _ _ step).
  destruct (known_step_of _ step) as [k|] eqn:Hk.
  - destruct (known_step_of_Some _ _ _ Hk) as (Hkin & Hkn & _).
    apply get_steps_elem in Hkin as [Hkd Hkdb].
    eexists _, _. split; [reflexivity|]. split_and!; try done.
    apply get_steps_elem. split; [done|].
    apply list_elem_of_lookup in Hkdb as [i Hi].
    apply list_elem_of_lookup. exists i.
    rewrite list_lookup_fmap.
    destruct np as [p|]; simpl.
    + rewrite list_lookup_fmap, Hi. simpl. f_equal.
      destruct (decide (step_id k = step_id p)) as [E|E]; simpl.
      * rewrite decide_True; [done|]. by rewrite <- E.
      * by rewrite decide_True.
    + rewrite Hi. simpl. by rewrite decide_True.
  - unfold add_step.
    set (new := match step_id _ with Some _ => _ | None => _ end).
    assert (Hfields : step_name new = step_name step /\ step_state new = step_state step /\
              step_deployment_id new = Some d /\ step_finished new = Some now /\
              step_started new = step_started step /\ step_message new = step_message step).
    { subst new. simpl. by destruct (step_id step). }
    destruct Hfields as (? & ? & ? & ? & ? & ?).
    eexists _, _. split; [reflexivity|]. split_and!; try done.
    apply get_steps_elem. split; [done|]. apply elem_of_app. right.
    by apply list_elem_of_singleton.
Qed.

(** The step [process_step] returns is persisted: it is a row of the new
    table, it belongs to the deployment, and it carries the report's name,
    state and message and [finished = now]. *)
Theorem process_step_returns_persisted_row self step now db d :
  is_Some (dep_started self) -> dep_finished self = None -> dep_id self = Some d ->
  exists r db',
    process_step self step now db = (Ok r, db') /\
    r ∈ get_steps_by_deployment_id d db' /\
    step_name r = step_name step /\ step_state r = step_state step /\
    step_message r = step_message step /\ step_finished r = Some now /\
    step_started r = step_started step.
Proof. apply returned_row. Qed.

Lemma process_step_returns_persisted_row_witness :
  exists r db',
    process_step ProcessStepExamples.dep (ProcessStepExamples.report "B" "success" "ok") 200
                 ProcessStepExamples.abc = (Ok r, db') /\
    r ∈ get_steps_by_deployment_id 7 db' /\ step_state r = "success".
Proof.
  destruct (process_step_returns_persisted_row ProcessStepExamples.dep
              (ProcessStepExamples.report "B" "success" "ok") 200 ProcessStepExamples.abc 7)
    as (r & db' & Hp & Hin & _ & Hst & _).
  - simpl. eauto.
  - reflexivity.
  - reflexivity.
  - exists r, db'. split; [exact Hp|]. split; [exact Hin|exact Hst].
Defined.

(** A report in state running, whatever it matched or created, makes every
    later report of the same name match an existing step: the second call
    overwrites a row that is already there and the table does not grow.
    This is how a running notice followed by the terminal result ends up
    in one row. *)
Theorem report_after_running_report_reuses_row self s1 s2 now1 now2 db d :
  is_Some (dep_started self) -> dep_finished self = None -> dep_id self = Some d ->
  step_state s1 = "running" -> step_name s2 = step_name s1 ->
  exists r1 db1 k db2,
    process_step self s1 now1 db = (Ok r1, db1) /\
    process_step self s2 now2 db1 = (Ok (overwrite k s2 now2), db2) /\
    k ∈ db1 /\ step_state k = "running" /\ step_name k = step_name s1 /\
    length db2 = length db1.
Proof.
  intros Hs Hf Hd Hrun Hname.
  destruct (returned_row self s1 now1 db d Hs Hf Hd)
    as (r1 & db1 & Hp1 & Hin1 & Hn1 & Hst1 & _).
  destruct (find_by_name (step_name s2)
              (running_steps (get_steps_by_deployment_id d db1))) as [k|] eqn:Hfind.
  - destruct (known_step_running_match _ _ _ Hfind) as [Hk Hkrun].
    destruct (process_step_known _ _ now2 _ _ _ Hs Hf Hd Hk)
      as (db2 & Hp2 & Hkin & _ & _ & Hlen & _).
    apply find_by_name_Some in Hfind as [_ Hkn].
    exists r1, db1, k, db2. split_and!; try done. congruence.
  - exfalso. apply (proj1 (find_by_name_None _ _) Hfind r1).
    + unfold running_steps. apply list_elem_of_filter. split; [congruence|done].
    + congruence.
Qed.

Lemma report_after_running_report_reuses_row_witness :
  exists r1 db1 k db2,
    process_step ProcessStepExamples.dep (ProcessStepExamples.report "X" "running" "") 200
                 ProcessStepExamples.abc = (Ok r1, db1) /\
    process_step ProcessStepExamples.dep (ProcessStepExamples.report "X" "success" "") 300 db1
      = (Ok (overwrite k (ProcessStepExamples.report "X" "success" "") 300), db2) /\
    length db2 = length db1.
Proof.
  destruct (report_after_running_report_reuses_row ProcessStepExamples.dep
              (ProcessStepExamples.report "X" "running" "")
              (ProcessStepExamples.report "X" "success" "") 200 300
              ProcessStepExamples.abc 7)
    as (r1 & db1 & k & db2 & Hp1 & Hp2 & _ & _ & _ & Hlen).
  - simpl. eauto.
  - reflexivity.
  - reflexivity.
  - reflexivity.
  - reflexivity.
  - exists r1, db1, k, db2. split; [exact Hp1|]. split; [exact Hp2|exact Hlen].
Defined.

(** The one-running-step rule is advisory only: a report that matches a
    running step promotes the first pending step whenever its state is not
    failure, so a repeated running report leaves the matched step running
    and sets the next step running as well. *)
Theorem repeated_running_report_runs_two_steps self step now db d k p0 rest :
  is_Some (dep_started self) -> dep_finished self = None -> dep_id self = Some d ->
  store_wf db ->
  find_by_name (step_name step) (running_steps (get_steps_by_deployment_id d db)) = Some k ->
  pending_steps (get_steps_by_deployment_id d db) = p0 :: rest ->
  step_state step = "running" ->
  let steps' := get_steps_by_deployment_id d (process_step self step now db).2 in
  overwrite k step now ∈ steps' /\ set_state "running" p0 ∈ steps' /\
  step_state (overwrite k step now) = "running" /\
  step_state (set_state "running" p0) = "running" /\
  step_id (overwrite k step now) <> step_id (set_state "running" p0).
Proof.
  intros Hs Hf Hd Hwf Hfind Hpend Hst steps'.
  destruct (known_step_running_match _ _ _ Hfind) as [Hk Hkrun].
  destruct (pending_head _ _ _ Hpend) as [Hp0in Hp0st].
  destruct (process_step_known _ _ now _ _ _ Hs Hf Hd Hk)
    as (db' & Hp & Hkdb & Hkd & _ & Hlen & _ & Hrows).
  specialize (Hrows Hwf). rewrite Hfind, Hpend in Hrows.
  assert (Hnp : next_pending_step_of (Some k) (p0 :: rest) step = Some p0).
  { unfold next_pending_step_of. rewrite decide_True; [done|]. by rewrite Hst. }
  rewrite Hnp in Hrows.
  assert (Hkp : k <> p0) by (intros ->; congruence).
  pose proof (proj1 (get_steps_elem d db p0) Hp0in) as [Hp0d Hp0db].
  subst steps'. rewrite Hp. simpl.
  rewrite (rows_as_fmap _ db db' Hlen Hrows).
  rewrite get_steps_fmap.
  - split_and!.
    + apply list_elem_of_fmap. exists k. split.
      * by rewrite decide_True.
      * by apply get_steps_elem.
    + apply list_elem_of_fmap. exists p0. split; [|done].
      rewrite decide_False by congruence. by rewrite decide_True.
    + done.
    + done.
    + simpl. intros E. apply Hkp. by apply (store_wf_inj db).
  - intros x Hx. by repeat case_decide; subst.
Qed.

Lemma repeated_running_report_runs_two_steps_witness :
  get_steps_by_deployment_id 7
    (process_step ProcessStepExamples.dep (ProcessStepExamples.report "A" "running" "") 200
       ProcessStepExamples.abc).2
  = [mkStep (Some 1) "A" None (Some 200) "running" (Some 7) "";
     ProcessStepExamples.row 2 "B" "running"; ProcessStepExamples.row 3 "C" "pending"] /\
  ProcessStepExamples.row 2 "B" "running"
    ∈ get_steps_by_deployment_id 7
        (process_step ProcessStepExamples.dep (ProcessStepExamples.report "A" "running" "") 200
           ProcessStepExamples.abc).2.
Proof.
  split; [vm_compute; reflexivity|].
  destruct (repeated_running_report_runs_two_steps ProcessStepExamples.dep
              (ProcessStepExamples.report "A" "running" "") 200 ProcessStepExamples.abc 7
              (ProcessStepExamples.row 1 "A" "running")
              (ProcessStepExamples.row 2 "B" "pending")
              [ProcessStepExamples.row 3 "C" "pending"]) as (_ & Hin & _).
  - simpl. eauto.
  - reflexivity.
  - reflexivity.
  - split; [repeat constructor; simpl; eauto|by apply (bool_decide_unpack _)].
  - vm_compute. reflexivity.
  - vm_compute. reflexivity.
  - reflexivity.
  - exact Hin.
Defined.

(** * Further properties of the token functions *)

Section ResolverFacts.

Variable mac : string -> string -> dict -> string.
Variable settings : Settings.

Lemma resolve_as_undecodable expected t uow now e :
  token_to_payload mac settings t now = Err e ->
  resolve_as mac settings expected t uow now = (Some e, []).
Proof.
  intros Hdec.
  destruct expected; simpl;
    unfold user_from_token, service_from_token, deployment_from_token;
    by rewrite Hdec.
Qed.

Lemma token_to_payload_refused t now :
  tok_signature t <> mac (secret_key settings) (token_sign_algorithm settings) (tok_claims t)
  \/ (exists exp, tok_claims t !! "exp" = Some (VInt exp) /\ exp < now) ->
  token_to_payload mac settings t now = Err InvalidToken.
Proof.
  unfold token_to_payload, jwt_decode. intros [Hsig|(exp & Hexp & Hlt)].
  - by rewrite decide_False.
  - case_decide; [|done]. rewrite Hexp. by rewrite decide_True.
Qed.

Lemma token_to_payload_error t now e :
  token_to_payload mac settings t now = Err e -> e = InvalidToken.
Proof.
  unfold token_to_payload, jwt_decode. repeat case_match; congruence.
Qed.

End ResolverFacts.

(** A token whose signature is not the one its claims are signed with, or
    whose [exp] lies in the past, is refused with InvalidToken by each of
    [user_from_token], [service_from_token] and [deployment_from_token],
    whatever its type claim says, and the repository is not consulted. *)
Theorem bad_token_never_reaches_repository mac settings expected t uow now :
  tok_signature t <> mac (secret_key settings) (token_sign_algorithm settings) (tok_claims t)
  \/ (exists exp, tok_claims t !! "exp" = Some (VInt exp) /\ exp < now) ->
  resolve_as mac settings expected t uow now = (Some InvalidToken, []).
Proof.
  intros Hbad. apply resolve_as_undecodable. by apply token_to_payload_refused.
Qed.

Lemma bad_token_never_reaches_repository_witness :
  resolve_as AuthExamples.mac0 AuthExamples.settings0 TUser
    (mkToken AuthExamples.user_claims "forged") AuthExamples.uow0 0
  = (Some InvalidToken, []).
Proof.
  apply bad_token_never_reaches_repository. left. vm_compute. discriminate.
Defined.

(** Each resolver consults the repository at most once: exactly once when
    it returns a principal or finds none, and not at all when it fails for
    the token itself (invalid, wrong type, subject missing). *)
Theorem resolvers_look_up_at_most_once mac settings expected t uow now :
  length (resolve_as mac settings expected t uow now).2
  = match (resolve_as mac settings expected t uow now).1 with
    | None | Some PrincipalNotFound => 1%nat
    | Some _ => 0%nat
    end.
Proof.
  destruct (token_to_payload mac settings t now) as [payload|e] eqn:Hdec.
  - destruct expected; simpl;
      unfold user_from_token, service_from_token, deployment_from_token;
      rewrite Hdec; (case_decide; [done|]).
    + by destruct (users_get uow _).
    + destruct (payload !! "service") as [n|]; [|done].
      by destruct (services_get_by_name uow n).
    + destruct (payload !! "deployment") as [n|]; [|done].
      by destruct (deployments_get uow n).
  - rewrite (resolve_as_undecodable mac settings expected t uow now e Hdec).
    by rewrite (token_to_payload_error mac settings t now e Hdec).
Qed.

(** Issue and resolve compose: for a valid claims map of type user,
    service or deployment and a lifetime for which a token is issued, the
    token resolves within its lifetime through the matching function to
    whatever the repository holds under the subject claim, with that single
    lookup; an absent principal is reported as such. *)
Theorem issued_token_resolves_to_subject
    mac settings claims expires_delta issued now uow t :
  valid_claims claims ->
  create_access_token mac settings claims expires_delta issued = Ok t ->
  expires_delta <> Some 0 ->
  now <= issued + default default_expiry expires_delta ->
  (claims !! "type" = Some (VStr "user") ->
     user_from_token mac settings t uow now
     = match users_get uow (claims !! "user") with
       | Some user => (Ok user, [UsersGet (claims !! "user")])
       | None => (Err PrincipalNotFound, [UsersGet (claims !! "user")])
       end) /\
  (forall servicename,
     claims !! "type" = Some (VStr "service") -> claims !! "service" = Some servicename ->
     service_from_token mac settings t uow now
     = match services_get_by_name uow servicename with
       | Some service => (Ok service, [ServicesGetByName servicename])
       | None => (Err PrincipalNotFound, [ServicesGetByName servicename])
       end) /\
  (forall deployment_id,
     claims !! "type" = Some (VStr "deployment") ->
     claims !! "deployment" = Some deployment_id ->
     deployment_from_token mac settings t uow now
     = match deployments_get uow deployment_id with
       | Some deployment => (Ok deployment, [DeploymentsGet deployment_id])
       | None => (Err PrincipalNotFound, [DeploymentsGet deployment_id])
       end).
Proof.
  intros Hvalid Hissue Hnz Hle.
  assert (Hdec : token_to_payload mac settings t now
                 = Ok (<["exp" := VInt (issued + default default_expiry expires_delta)]> claims)).
  { apply create_access_token_inv in Hissue as (expire & _ & Hexp & ->).
    rewrite token_to_payload_encoded.
    assert (expire = issued + default default_expiry expires_delta) as ->.
    { rewrite Hexp. destruct expires_delta as [delta|]; [|done]. simpl.
      rewrite decide_False; [done|]. congruence. }
    by rewrite decide_False by lia. }
  split_and!.
  - intros Hty. unfold user_from_token. rewrite Hdec.
    rewrite decide_False by (rewrite lookup_insert_ne by done; rewrite Hty; auto).
    by rewrite lookup_insert_ne by done.
  - intros n Hty Hsub. unfold service_from_token. rewrite Hdec.
    rewrite decide_False by (rewrite lookup_insert_ne by done; rewrite Hty; auto).
    by rewrite lookup_insert_ne, Hsub by done.
  - intros n Hty Hsub. unfold deployment_from_token. rewrite Hdec.
    rewrite decide_False by (rewrite lookup_insert_ne by done; rewrite Hty; auto).
    by rewrite lookup_insert_ne, Hsub by done.
Qed.

Lemma issued_token_resolves_to_subject_witness :
  exists t,
    create_access_token AuthExamples.mac0 AuthExamples.settings0
      AuthExamples.user_claims (Some 300) 1000 = Ok t /\
    user_from_token AuthExamples.mac0 AuthExamples.settings0 t AuthExamples.uow0 1300
    = (Ok (mkUser (Some 1) (Some "jochen") None), [UsersGet (Some (VStr "jochen"))]).
Proof.
  assert (Hissue : create_access_token AuthExamples.mac0 AuthExamples.settings0
                     AuthExamples.user_claims (Some 300) 1000
                   = Ok (jwt_encode AuthExamples.mac0
                           (<["exp" := VInt (1000 + default default_expiry (Some 300))]>
                              AuthExamples.user_claims)
                           (secret_key AuthExamples.settings0)
                           (token_sign_algorithm AuthExamples.settings0))).
  { apply create_access_token_Ok; [discriminate|by apply (bool_decide_unpack _)]. }
  eexists. split; [exact Hissue|].
  assert (Hvalid : valid_claims AuthExamples.user_claims)
    by (by apply (bool_decide_unpack _)).
  destruct (issued_token_resolves_to_subject AuthExamples.mac0 AuthExamples.settings0
              AuthExamples.user_claims (Some 300) 1000 1300 AuthExamples.uow0 _
              Hvalid Hissue)
    as (Hu & _).
  - discriminate.
  - simpl. lia.
  - apply Hu. reflexivity.
Defined.

(** A subject claim that is missing is handled unevenly: [service_from_token]
    and [deployment_from_token] raise before any lookup, while
    [user_from_token] passes [None] to [users.get] and returns whatever the
    repository answers to it. *)
Theorem missing_subject_is_checked_for_service_and_deployment_only
    mac settings t uow now payload :
  token_to_payload mac settings t now = Ok payload ->
  (payload !! "type" = Some (VStr "service") -> payload !! "service" = None ->
     service_from_token mac settings t uow now = (Err MissingSubject, [])) /\
  (payload !! "type" = Some (VStr "deployment") -> payload !! "deployment" = None ->
     deployment_from_token mac settings t uow now = (Err MissingSubject, [])) /\
  (payload !! "type" = Some (VStr "user") -> payload !! "user" = None ->
     (user_from_token mac settings t uow now).2 = [UsersGet None] /\
     forall user, users_get uow None = Some user ->
       user_from_token mac settings t uow now = (Ok user, [UsersGet None])).
Proof.
  intros Hdec. split_and!.
  - intros Hty Hsub. unfold service_from_token. rewrite Hdec.
    rewrite decide_False by (rewrite Hty; auto). by rewrite Hsub.
  - intros Hty Hsub. unfold deployment_from_token. rewrite Hdec.
    rewrite decide_False by (rewrite Hty; auto). by rewrite Hsub.
  - intros Hty Hsub. unfold user_from_token. rewrite Hdec.
    rewrite decide_False by (rewrite Hty; auto). rewrite Hsub. split.
    + by destruct (users_get uow None).
    + by intros user ->.
Qed.

Lemma missing_subject_is_checked_for_service_and_deployment_only_witness :
  user_from_token AuthExamples.mac0 AuthExamples.settings0
    (jwt_encode AuthExamples.mac0 (<["exp" := VInt 1300]> {[ "type" := VStr "user" ]})
       "secret" "HS256")
    AuthExamples.uow0 1100
  = (Ok (mkUser (Some 1) (Some "jochen") None), [UsersGet None]).
Proof.
  destruct (missing_subject_is_checked_for_service_and_deployment_only
              AuthExamples.mac0 AuthExamples.settings0
              (jwt_encode AuthExamples.mac0
                 (<["exp" := VInt 1300]> {[ "type" := VStr "user" ]}) "secret" "HS256")
              AuthExamples.uow0 1100
              (<["exp" := VInt 1300]> {[ "type" := VStr "user" ]}))
    as (_ & _ & Hu).
  - vm_compute. reflexivity.
  - destruct Hu as [_ Hu]; [reflexivity|reflexivity|].
    apply Hu. reflexivity.
Defined.



(** * Further properties of [sync_services] *)

Lemma deleted_refs_all (heap : list Service) :
  omap (deref heap) (deleted_refs (name_lookup []) heap) = heap.
Proof.
  unfold deleted_refs.
  rewrite (imap_ext pair (fun j => pair (0 + j)%nat)) by done.
  rewrite (deleted_deref [] heap heap 0); [|done].
  induction heap as [|x heap IH]; [done|].
  rewrite filter_cons, decide_True.
  - by rewrite IH.
  - simpl. apply not_elem_of_nil.
Qed.

Lemma sync_all_additions (source : list Service) : forall updated : list service_ref,
  foldl (sync_visit (name_lookup [])) ([], updated) source
  = ([], updated ++ (SourceObj <$> source)).
Proof.
  induction source as [|s source IH]; intros updated; simpl.
  - by rewrite app_nil_r.
  - unfold name_lookup at 2. simpl. rewrite lookup_empty.
    fold (name_lookup []). rewrite IH. by rewrite <- app_assoc.
Qed.

Lemma omap_deref_sources (heap l : list Service) :
  omap (deref heap) (SourceObj <$> l) = l.
Proof.
  induction l as [|s l IH]; [done|].
  rewrite fmap_cons. cbn [omap list_omap deref]. by rewrite IH.
Qed.

(** The two empty edges: with an empty source nothing is updated and every
    target service is to be deleted; with nothing persisted every source
    service is an addition, in source order, and nothing is deleted. *)
Theorem sync_services_empty_edges (services : list Service) :
  sync_services [] services = ([], services) /\
  sync_services services [] = (services, []).
Proof.
  split.
  - unfold sync_services, sync_services_run. simpl. f_equal. apply deleted_refs_all.
  - unfold sync_services, sync_services_run.
    rewrite sync_all_additions. cbn [app]. by rewrite omap_deref_sources.
Qed.

Lemma length_omap_le {A B} (f : A -> option B) (l : list A) :
  (length (omap f l) <= length l)%nat.
Proof.
  induction l as [|x l IH]; [done|]. cbn [omap list_omap].
  destruct (f x); simpl; lia.
Qed.

(** What the first loop keeps for lists of any kind, names repeated or not:
    the heap has the targets' names and ids in the targets' places, a
    target whose name no visited service bears is untouched, and every
    reference listed is a visited service or a target named like one. *)
Lemma sync_run_inv (target l : list Service) :
  length (foldl (sync_visit (name_lookup target)) (target, []) l).1 = length target /\
  (forall i h, (foldl (sync_visit (name_lookup target)) (target, []) l).1 !! i = Some h ->
     exists t, target !! i = Some t /\ svc_name h = svc_name t /\ svc_id h = svc_id t) /\
  (forall i t, target !! i = Some t -> svc_name t ∉ svc_name <$> l ->
     (foldl (sync_visit (name_lookup target)) (target, []) l).1 !! i = Some t) /\
  (forall r, r ∈ (foldl (sync_visit (name_lookup target)) (target, []) l).2 ->
     match r with
     | SourceObj s => s ∈ l
     | TargetObj i => exists t, target !! i = Some t /\ svc_name t ∈ svc_name <$> l
     end) /\
  (length (foldl (sync_visit (name_lookup target)) (target, []) l).2 <= length l)%nat.
Proof.
  induction l as [|s l IH] using rev_ind.
  - simpl. split_and!; try done.
    + intros i h Hh. by exists h.
    + intros r Hr. by apply elem_of_nil in Hr.
  - rewrite foldl_app. cbn [foldl].
    destruct (foldl _ _ l) as [heap updated]. simpl in IH.
    destruct IH as (Hlen & Hnames & Hfresh & Hrefs & Hcount).
    assert (Hweak : forall n, n ∈ svc_name <$> l -> n ∈ svc_name <$> (l ++ [s])).
    { intros n Hn. rewrite fmap_app. apply elem_of_app. by left. }
    assert (Hs : svc_name s ∈ svc_name <$> (l ++ [s])).
    { rewrite fmap_app. apply elem_of_app. right. simpl. by apply list_elem_of_singleton. }
    assert (Hold : forall r, r ∈ updated ->
              match r with
              | SourceObj s' => s' ∈ l ++ [s]
              | TargetObj i => exists t, target !! i = Some t /\
                                 svc_name t ∈ svc_name <$> (l ++ [s])
              end).
    { intros [s'|i] Hr; specialize (Hrefs _ Hr); simpl in Hrefs.
      - apply elem_of_app. by left.
      - destruct Hrefs as (t & Hi & Hn). eauto. }
    rewrite length_app. simpl.
    unfold sync_visit.
    destruct (name_lookup target !! svc_name s) as [i|] eqn:El.
    + destruct (name_lookup_Some _ _ _ El) as (t & Hi & Hn).
      destruct (heap !! i) as [h|] eqn:Hh.
      * destruct (Hnames i h Hh) as (t' & Hi' & Hhn & Hhid).
        rewrite Hi in Hi'. injection Hi' as <-.
        case_decide as Hd; simpl.
        -- split_and!.
           ++ by rewrite length_insert.
           ++ intros j h' Hj. destruct (decide (j = i)) as [->|Hji].
              ** rewrite list_lookup_insert_eq in Hj by (apply lookup_lt_Some in Hh; lia).
                 injection Hj as <-. exists t. by split_and!.
              ** rewrite list_lookup_insert_ne in Hj by done. by apply Hnames.
           ++ intros j t' Hj Hnin. rewrite list_lookup_insert_ne.
              ** apply Hfresh; [done|]. intros Hin. by apply Hnin, Hweak.
              ** intros <-. rewrite Hi in Hj. injection Hj as <-.
                 apply Hnin. by rewrite Hn.
           ++ intros r Hr. apply elem_of_app in Hr as [Hr|Hr]; [by apply Hold|].
              apply list_elem_of_singleton in Hr. subst r. exists t. split; [done|].
              by rewrite Hn.
           ++ rewrite length_app. simpl. lia.
        -- split_and!; try done.
           ++ intros j t' Hj Hnin. apply Hfresh; [done|]. intros Hin. by apply Hnin, Hweak.
           ++ lia.
      * simpl. split_and!; try done.
        -- intros j t' Hj Hnin. apply Hfresh; [done|]. intros Hin. by apply Hnin, Hweak.
        -- lia.
    + simpl. split_and!; try done.
      * intros j t' Hj Hnin. apply Hfresh; [done|]. intros Hin. by apply Hnin, Hweak.
      * intros r Hr. apply elem_of_app in Hr as [Hr|Hr]; [by apply Hold|].
        apply list_elem_of_singleton in Hr. subst r. apply elem_of_app. right.
        by apply list_elem_of_singleton.
      * rewrite length_app. simpl. lia.
Qed.

(** Whatever the lists, names repeated or not: every service in the first
    list returned bears the name of a source service, every service in the
    second is a target service, unchanged, whose name no source service
    bears, so no name is ever reported both as updated and as deleted; and
    the first list has at most one entry per source service. *)
Theorem sync_services_never_updates_and_deletes_a_name (source target : list Service) :
  (forall x, x ∈ (sync_services source target).1 -> svc_name x ∈ svc_name <$> source) /\
  (forall x, x ∈ (sync_services source target).2 ->
     x ∈ target /\ svc_name x ∉ svc_name <$> source) /\
  (length (sync_services source target).1 <= length source)%nat /\
  (length (sync_services source target).2 <= length target)%nat.
Proof.
  unfold sync_services, sync_services_run.
  destruct (sync_run_inv target source) as (Hlen & Hnames & Hfresh & Hrefs & Hcount).
  destruct (foldl _ _ source) as [heap updated]. simpl in *. split_and!.
  - intros x Hx. apply list_elem_of_omap in Hx as (r & Hr & Hd).
    specialize (Hrefs r Hr). destruct r as [s|i]; simpl in Hd.
    + injection Hd as <-. apply list_elem_of_fmap. by exists s.
    + destruct Hrefs as (t & Hi & Hn).
      destruct (Hnames i x Hd) as (t' & Hi' & Hxn & _).
      rewrite Hi in Hi'. injection Hi' as <-. by rewrite Hxn.
  - intros x Hx. apply list_elem_of_omap in Hx as (r & Hr & Hd).
    unfold deleted_refs in Hr. apply list_elem_of_omap in Hr as ([i t] & Hit & Hsel).
    apply elem_of_lookup_imap in Hit as (j & t' & Heq & Hj). injection Heq as -> ->.
    simpl in Hsel. destruct (name_lookup source !! svc_name t') eqn:El; [done|].
    injection Hsel as <-. simpl in Hd.
    apply name_lookup_None in El. rewrite (Hfresh j t' Hj El) in Hd. injection Hd as <-.
    split; [|done]. apply list_elem_of_lookup. eauto.
  - etransitivity; [apply length_omap_le|done].
  - etransitivity; [apply length_omap_le|]. unfold deleted_refs.
    etransitivity; [apply length_omap_le|]. by rewrite length_imap.
Qed.

Lemma omap_nil_iff {A B} (f : A -> option B) (l : list A) :
  omap f l = [] <-> forall x, x ∈ l -> f x = None.
Proof.
  induction l as [|x l IH]; cbn [omap list_omap].
  - split; [|done]. intros _ x Hx. by apply elem_of_nil in Hx.
  - destruct (f x) as [y|] eqn:E.
    + split; [done|]. intros Hall. specialize (Hall x). rewrite E in Hall.
      discriminate Hall. apply elem_of_cons. auto.
    + rewrite IH. split.
      * intros Hall y Hy. apply elem_of_cons in Hy as [->|Hy]; auto.
      * intros Hall y Hy. apply Hall, elem_of_cons. auto.
Qed.

Lemma filter_nil_iff {A} (P : A -> Prop) `{!forall x, Decision (P x)} (l : list A) :
  filter P l = [] <-> forall x, x ∈ l -> ~ P x.
Proof.
  induction l as [|x l IH].
  - split; [|done]. intros _ x Hx. by apply elem_of_nil in Hx.
  - rewrite filter_cons. destruct (decide (P x)) as [Hp|Hp].
    + split; [done|]. intros Hall. destruct (Hall x); [apply elem_of_cons; auto|done].
    + rewrite IH. split.
      * intros Hall y Hy. apply elem_of_cons in Hy as [->|Hy]; auto.
      * intros Hall y Hy. apply Hall, elem_of_cons. auto.
Qed.

Lemma updated_of_None (target : list Service) (s : Service) :
  NoDup (svc_name <$> target) ->
  updated_of target s = None <->
  exists t, t ∈ target /\ svc_name t = svc_name s /\ svc_data t = svc_data s.
Proof.
  intros Hnd. unfold updated_of. split.
  - destruct (head _) as [t|] eqn:Hh; [|done].
    apply head_Some_elem_of in Hh. apply list_elem_of_filter in Hh as [Hn Hin].
    case_decide as Hd; [done|]. intros _. exists t. split_and!; try done.
    all: by destruct (decide (svc_data t = svc_data s)); [|destruct Hd].
  - intros (t & Hin & Hn & Hd).
    destruct (head _) as [t'|] eqn:Hh.
    + apply head_Some_elem_of in Hh. apply list_elem_of_filter in Hh as [Hn' Hin'].
      assert (t' = t) as -> by (apply (names_elem_inj target); congruence).
      rewrite decide_False; [done|]. intros Hne. by apply Hne.
    + apply head_None in Hh.
      assert (Hf : t ∈ filter (fun t => svc_name t = svc_name s) target)
        by (by apply list_elem_of_filter).
      rewrite Hh in Hf. by apply elem_of_nil in Hf.
Qed.

(** For lists with unique names, [sync_services] reports nothing to do,
    two empty lists, exactly when every source service has a target of its
    name with equal data and every target bears the name of a source
    service. *)
Theorem sync_services_nothing_to_do source target :
  NoDup (svc_name <$> source) -> NoDup (svc_name <$> target) ->
  sync_services source target = ([], []) <->
  (forall s, s ∈ source ->
     exists t, t ∈ target /\ svc_name t = svc_name s /\ svc_data t = svc_data s) /\
  (forall t, t ∈ target -> svc_name t ∈ svc_name <$> source).
Proof.
  intros Hs Ht. rewrite (sync_services_is_spec source target Hs Ht).
  unfold sync_services_spec. split.
  - intros [= Hup Hdel]. split.
    + intros s Hin. apply (updated_of_None target s Ht).
      by apply (proj1 (omap_nil_iff _ _) Hup).
    + intros t Hin.
      pose proof (proj1 (filter_nil_iff _ _) Hdel t Hin) as Hn.
      by destruct (decide (svc_name t ∈ svc_name <$> source)).
  - intros [Hup Hdel]. f_equal.
    + apply omap_nil_iff. intros s Hin. apply (updated_of_None target s Ht). by apply Hup.
    + apply filter_nil_iff. intros t Hin Hn. by apply Hn, Hdel.
Qed.

Lemma sync_services_nothing_to_do_witness :
  sync_services [mkService None "a" {[ "x" := VInt 2 ]}] [SyncExamples.tgt_a] = ([], []).
Proof.
  apply sync_services_nothing_to_do.
  - simpl. apply NoDup_singleton.
  - simpl. apply NoDup_singleton.
  - split.
    + intros s Hs. apply list_elem_of_singleton in Hs. subst s.
      exists SyncExamples.tgt_a. split; [by apply list_elem_of_singleton|]. by split.
    + intros t Hin. apply list_elem_of_singleton in Hin. subst t.
      simpl. by apply list_elem_of_singleton.
Defined.

(** *** The targets after the loop *)

Lemma set_data_same (t : Service) (d : dict) : svc_data t = d -> set_data d t = t.
Proof. intros <-. by destruct t. Qed.

Section SyncHeap.

Variable target : list Service.
Hypothesis target_names : NoDup (svc_name <$> target).

(** A target whose name none of the services to visit bears is not written. *)
Lemma sync_frame todo : forall (heap : list Service) (updated : list service_ref) i t,
  target !! i = Some t -> svc_name t ∉ svc_name <$> todo ->
  (foldl (sync_visit (name_lookup target)) (heap, updated) todo).1 !! i = heap !! i.
Proof.
  induction todo as [|s todo IH]; intros heap updated i t Hi Hn; [done|].
  rewrite fmap_cons in Hn. apply not_elem_of_cons in Hn as [Hne Hn].
  cbn [foldl]. unfold sync_visit at 2.
  destruct (name_lookup target !! svc_name s) as [j|] eqn:El; [|by apply (IH _ _ i t)].
  destruct (heap !! j) as [h|] eqn:Hh; [|by apply (IH _ _ i t)].
  case_decide; [|by apply (IH _ _ i t)].
  rewrite (IH _ _ i t Hi Hn). apply list_lookup_insert_ne.
  intros ->. destruct (name_lookup_Some _ _ _ El) as (t' & Hi' & Hn').
  rewrite Hi in Hi'. injection Hi' as <-. by rewrite Hn' in Hne.
Qed.

(** A target named like a visited service ends up with that service's data. *)
Lemma sync_loop_heap todo : forall (heap : list Service) (updated : list service_ref),
  NoDup (svc_name <$> todo) ->
  (forall i t, target !! i = Some t -> svc_name t ∈ svc_name <$> todo -> heap !! i = Some t) ->
  forall i t s, target !! i = Some t -> s ∈ todo -> svc_name s = svc_name t ->
    (foldl (sync_visit (name_lookup target)) (heap, updated) todo).1 !! i
    = Some (set_data (svc_data s) t).
Proof.
  induction todo as [|s0 todo IH]; intros heap updated Hnd Hfresh i t s Hi Hin Hn.
  - by apply elem_of_nil in Hin.
  - rewrite fmap_cons in Hnd. apply NoDup_cons in Hnd as [Hs0 Hnd].
    assert (Hin0 : forall n, n ∈ svc_name <$> todo -> n ∈ svc_name <$> (s0 :: todo))
      by (intros n Hn'; rewrite fmap_cons; apply elem_of_cons; auto).
    cbn [foldl].
    apply elem_of_cons in Hin as [->|Hin].
    + pose proof (name_lookup_NoDup target i t target_names Hi) as El.
      rewrite <- Hn in El.
      assert (Hh : heap !! i = Some t).
      { apply Hfresh; [done|]. rewrite <- Hn, fmap_cons. apply elem_of_cons; auto. }
      assert (Hnot : svc_name t ∉ svc_name <$> todo) by (by rewrite <- Hn).
      destruct (decide (svc_data t = svc_data s0)) as [Hd|Hd].
      * rewrite (sync_visit_same _ _ _ _ _ _ El Hh Hd).
        rewrite (sync_frame todo _ _ i t Hi Hnot). rewrite Hh.
        by rewrite set_data_same.
      * rewrite (sync_visit_differs _ _ _ _ _ _ El Hh Hd).
        rewrite (sync_frame todo _ _ i t Hi Hnot).
        apply list_lookup_insert_eq. apply lookup_lt_Some in Hh. lia.
    + assert (Hne : svc_name s0 <> svc_name t).
      { intros E. apply Hs0. rewrite E, <- Hn. apply list_elem_of_fmap. by exists s. }
      assert (Hstep : exists heap1 updated1,
                sync_visit (name_lookup target) (heap, updated) s0 = (heap1, updated1) /\
                forall j t', target !! j = Some t' -> svc_name t' ∈ svc_name <$> todo ->
                             heap1 !! j = Some t').
      { unfold sync_visit.
        destruct (name_lookup target !! svc_name s0) as [j0|] eqn:El;
          [|eexists _, _; split; [reflexivity|]; intros; apply Hfresh; auto].
        destruct (heap !! j0) as [h|] eqn:Hh;
          [|eexists _, _; split; [reflexivity|]; intros; apply Hfresh; auto].
        case_decide;
          [|eexists _, _; split; [reflexivity|]; intros; apply Hfresh; auto].
        eexists _, _. split; [reflexivity|]. intros j t' Hj Hin'.
        rewrite list_lookup_insert_ne; [apply Hfresh; auto|].
        intros <-. destruct (name_lookup_Some _ _ _ El) as (t0 & Hi0 & Hn0).
        rewrite Hj in Hi0. injection Hi0 as <-. apply Hs0. by rewrite <- Hn0. }
      destruct Hstep as (heap1 & updated1 & -> & Hfresh1).
      by apply (IH heap1 updated1 Hnd Hfresh1 i t s).
Qed.

End SyncHeap.

Lemma filter_agree {A} (P : A -> Prop) `{!forall x, Decision (P x)} (l1 : list A) :
  forall l2 : list A,
  length l1 = length l2 ->
  (forall i x y, l1 !! i = Some x -> l2 !! i = Some y -> (P x <-> P y) /\ (P y -> x = y)) ->
  filter P l1 = filter P l2.
Proof.
  induction l1 as [|x l1 IH]; intros [|y l2] Hlen Hag; try done.
  destruct (Hag 0%nat x y eq_refl eq_refl) as [Hiff Heq].
  rewrite !filter_cons.
  rewrite (IH l2); [|by injection Hlen|intros i; apply (Hag (S i))].
  destruct (decide (P x)) as [Hx|Hx], (decide (P y)) as [Hy|Hy]; try tauto.
  by rewrite (Heq Hy).
Qed.

(** The targets are updated in place, so a second run over the same lists
    finds nothing left to update: with unique names its first list holds
    only the source services absent from the target, and its second list is
    the one of the first run. *)
Theorem sync_services_second_run_only_adds source target :
  NoDup (svc_name <$> source) -> NoDup (svc_name <$> target) ->
  let synced := (sync_services_run source target).1 in
  (forall x, x ∈ (sync_services source synced).1 ->
     x ∈ source /\ svc_name x ∉ svc_name <$> target) /\
  (sync_services source synced).2 = (sync_services source target).2.
Proof.
  intros Hs Ht synced.
  destruct (sync_run_inv target source) as (Hlen & Hnames & Hfresh & _ & _).
  fold (sync_services_run source target) in Hlen, Hnames, Hfresh. fold synced in Hlen, Hnames, Hfresh.
  assert (Hn : svc_name <$> synced = svc_name <$> target).
  { apply list_eq. intros i. rewrite !list_lookup_fmap.
    destruct (synced !! i) as [h|] eqn:Hh.
    - destruct (Hnames i h Hh) as (t & Hi & Hhn & _). rewrite Hi. simpl. by rewrite Hhn.
    - apply lookup_ge_None in Hh. rewrite Hlen in Hh. apply lookup_ge_None in Hh.
      by rewrite Hh. }
  assert (Hnd : NoDup (svc_name <$> synced)) by (by rewrite Hn).
  rewrite (sync_services_is_spec source synced Hs Hnd).
  rewrite (sync_services_is_spec source target Hs Ht).
  unfold sync_services_spec. simpl. split.
  - intros x Hx. apply list_elem_of_omap in Hx as (s & Hin & Hup).
    unfold updated_of in Hup.
    destruct (head _) as [h|] eqn:Hh.
    + exfalso. apply head_Some_elem_of in Hh. apply list_elem_of_filter in Hh as [Hhn Hhin].
      apply list_elem_of_lookup in Hhin as [i Hi].
      destruct (Hnames i h Hi) as (t & Hti & Htn & _).
      assert (Hfresh0 : forall j t', target !! j = Some t' ->
                svc_name t' ∈ svc_name <$> source -> target !! j = Some t') by done.
      pose proof (sync_loop_heap target Ht source target [] Hs Hfresh0 i t s Hti Hin
                    ltac:(congruence)) as Hfinal.
      fold (sync_services_run source target) in Hfinal. fold synced in Hfinal.
      rewrite Hi in Hfinal. injection Hfinal as ->.
      simpl in Hup. by rewrite decide_False in Hup by (intros Hne; by apply Hne).
    + injection Hup as <-. split; [done|]. rewrite <- Hn.
      apply head_None in Hh. intros Hname.
      apply list_elem_of_fmap in Hname as (h & Hhn & Hhin).
      assert (Hf : h ∈ filter (fun t => svc_name t = svc_name s) synced)
        by (by apply list_elem_of_filter).
      rewrite Hh in Hf. by apply elem_of_nil in Hf.
  - apply filter_agree; [done|].
    intros i h t Hi Hti. destruct (Hnames i h Hi) as (t' & Hti' & Hhn & _).
    rewrite Hti in Hti'. injection Hti' as <-. split; [by rewrite Hhn|].
    intros Hnin. rewrite (Hfresh i t Hti Hnin) in Hi. congruence.
Qed.

Lemma sync_services_second_run_only_adds_witness :
  sync_services [SyncExamples.src_a]
                (sync_services_run [SyncExamples.src_a] [SyncExamples.tgt_a]).1
  = ([], []).
Proof.
  destruct (sync_services_second_run_only_adds [SyncExamples.src_a] [SyncExamples.tgt_a])
    as [_ Hdel].
  - simpl. apply NoDup_singleton.
  - simpl. apply NoDup_singleton.
  - vm_compute. reflexivity.
Defined.

(** *** Services from the filesystem *)

Lemma get_services_from_filesystem_map (fs : Filesystem) :
  get_services_from_filesystem fs
  = (fun name => mkService None name (get_config_by_name fs name)) <$> fs_list fs.
Proof.
  unfold get_services_from_filesystem, get_service_names.
  assert (H : forall names acc,
            foldl (fun services name =>
                     services ++ [mkService None name (get_config_by_name fs name)])
                  acc names
            = acc ++ ((fun name => mkService None name (get_config_by_name fs name))
                        <$> names)).
  { induction names as [|n names IH]; intros acc; simpl.
    - by rewrite app_nil_r.
    - rewrite IH. by rewrite <- app_assoc. }
  by rewrite H.
Qed.

Lemma services_from_filesystem_facts (fs : Filesystem) :
  svc_name <$> get_services_from_filesystem fs = fs_list fs /\
  forall s, s ∈ get_services_from_filesystem fs ->
    svc_id s = None /\ svc_data s = get_config_by_name fs (svc_name s).
Proof.
  rewrite get_services_from_filesystem_map. split.
  - rewrite <- list_fmap_compose. apply list_fmap_id.
  - intros s Hs. apply list_elem_of_fmap in Hs as (n & -> & _). done.
Qed.

(** [get_services_from_filesystem] returns one unsaved service per listed
    name, in the listed order, each with the configuration stored under its
    name. *)
Theorem get_services_from_filesystem_follows_listing (fs : Filesystem) :
  svc_name <$> get_services_from_filesystem fs = fs_list fs /\
  forall s, s ∈ get_services_from_filesystem fs ->
    svc_id s = None /\ svc_data s = get_config_by_name fs (svc_name s).
Proof. apply services_from_filesystem_facts. Qed.

(** Reconciling the filesystem against the persisted services: for unique
    names, every service in the first list carries the configuration the
    filesystem holds under its name, and the second list holds exactly the
    persisted services whose name the filesystem no longer lists. *)
Theorem sync_with_filesystem (fs : Filesystem) (target : list Service) :
  NoDup (fs_list fs) -> NoDup (svc_name <$> target) ->
  (forall x, x ∈ (sync_services (get_services_from_filesystem fs) target).1 ->
     svc_name x ∈ fs_list fs /\ svc_data x = get_config_by_name fs (svc_name x)) /\
  (forall x, x ∈ (sync_services (get_services_from_filesystem fs) target).2 <->
     x ∈ target /\ svc_name x ∉ fs_list fs).
Proof.
  intros Hfs Ht.
  destruct (services_from_filesystem_facts fs) as [Hnames Hdata].
  assert (Hs : NoDup (svc_name <$> get_services_from_filesystem fs)) by (by rewrite Hnames).
  rewrite (sync_services_is_spec _ target Hs Ht). unfold sync_services_spec. simpl.
  rewrite Hnames. split.
  - intros x Hx. apply list_elem_of_omap in Hx as (s & Hin & Hup).
    destruct (Hdata s Hin) as [_ Hd].
    assert (Hsn : svc_name s ∈ fs_list fs).
    { rewrite <- Hnames. apply list_elem_of_fmap. by exists s. }
    unfold updated_of in Hup. destruct (head _) as [t|] eqn:Hh.
    + apply head_Some_elem_of in Hh. apply list_elem_of_filter in Hh as [Hn _].
      case_decide; [|done]. injection Hup as <-. simpl. rewrite Hn. by split.
    + injection Hup as <-. by split.
  - intros x. rewrite list_elem_of_filter. tauto.
Qed.

Lemma sync_with_filesystem_witness :
  sync_services (get_services_from_filesystem FilesystemExamples.fs0)
                [SyncExamples.tgt_a; mkService (Some 6) "gone" ∅]
  = ([mkService (Some 4) "a" {[ "x" := VInt 1 ]}; mkService None "b" ∅],
     [mkService (Some 6) "gone" ∅]).
Proof.
  destruct (sync_with_filesystem FilesystemExamples.fs0
              [SyncExamples.tgt_a; mkService (Some 6) "gone" ∅]) as [_ _].
  - by apply (bool_decide_unpack _).
  - by apply (bool_decide_unpack _).
  - vm_compute. reflexivity.
Defined.

(** * The deploy script path: [ServicePydantic.get_deploy_script] *)

Lemma count_slashes_app (s1 s2 : string) :
  count_slashes (s1 +:+ s2) = (count_slashes s1 + count_slashes s2)%nat.
Proof. induction s1 as [|c s1 IH]; simpl; [done|]. rewrite IH. lia. Qed.

Lemma remove_slashes_none (s : string) : count_slashes (remove_slashes s) = 0%nat.
Proof.
  induction s as [|c s IH]; simpl; [done|].
  destruct (decide (c = "/"%char)) as [Hc|Hc]; [done|]. simpl.
  by rewrite decide_False.
Qed.

Lemma remove_slashes_id (s : string) : count_slashes s = 0%nat -> remove_slashes s = s.
Proof.
  induction s as [|c s IH]; simpl; [done|].
  destruct (decide (c = "/"%char)); [done|]. simpl. intros H. by rewrite IH.
Qed.

(** [remove_slashes] keeps the characters that are no slash, in order. *)
Lemma remove_slashes_filter (s : string) :
  String.list_ascii_of_string (remove_slashes s)
  = filter (fun c => c <> "/"%char) (String.list_ascii_of_string s).
Proof.
  induction s as [|c s IH]; simpl; [done|]. rewrite filter_cons.
  destruct (decide (c = "/"%char)) as [Hc|Hc].
  - by rewrite decide_False by (intros E; by apply E).
  - rewrite decide_True by done. simpl. by rewrite IH.
Qed.

(** The script configured for a service cannot leave the service's
    directory: the path returned is the service name, one slash, and the
    characters of the configured script (["deploy.sh"] when none is
    configured) that are no slash, in their order, so it holds exactly one
    slash more than the name; a configured script without slashes is used
    as it is, and a configured value that is no string raises. *)
Theorem get_deploy_script_stays_in_service_directory (self : Service) :
  (forall path, get_deploy_script self = Ok path ->
     exists configured script,
       default (VStr "deploy.sh") (svc_data self !! "deploy_script") = VStr configured /\
       path = svc_name self +:+ "/" +:+ script /\
       String.list_ascii_of_string script
       = filter (fun c => c <> "/"%char) (String.list_ascii_of_string configured) /\
       count_slashes script = 0%nat /\
       count_slashes path = S (count_slashes (svc_name self))) /\
  (forall configured,
     default (VStr "deploy.sh") (svc_data self !! "deploy_script") = VStr configured ->
     exists script,
       get_deploy_script self = Ok (svc_name self +:+ "/" +:+ script) /\
       String.list_ascii_of_string script
       = filter (fun c => c <> "/"%char) (String.list_ascii_of_string configured)) /\
  (svc_data self !! "deploy_script" = None ->
     get_deploy_script self = Ok (svc_name self +:+ "/deploy.sh")) /\
  (forall script, svc_data self !! "deploy_script" = Some (VStr script) ->
     count_slashes script = 0%nat ->
     get_deploy_script self = Ok (svc_name self +:+ "/" +:+ script)) /\
  (forall v, svc_data self !! "deploy_script" = Some v -> (forall s, v <> VStr s) ->
     get_deploy_script self = Err ScriptAttributeError).
Proof.
  unfold get_deploy_script. split_and!.
  - intros path. destruct (default _ _) as [|script|]; try done.
    intros [= <-]. exists script, (remove_slashes script). split_and!; try done.
    + apply remove_slashes_filter.
    + apply remove_slashes_none.
    + rewrite !count_slashes_app, remove_slashes_none. simpl. lia.
  - intros configured ->.
    exists (remove_slashes configured). split; [done|apply remove_slashes_filter].
  - intros ->. reflexivity.
  - intros script -> Hc. simpl. by rewrite remove_slashes_id.
  - intros v -> Hv. simpl. destruct v as [z|s|l]; try done. by destruct (Hv s).
Qed.

Lemma get_deploy_script_stays_in_service_directory_witness :
  exists script,
    get_deploy_script (mkService (Some 1) "web" {[ "deploy_script" := VStr "../run.sh" ]})
    = Ok ("web/" +:+ script) /\
    String.list_ascii_of_string script = String.list_ascii_of_string "..run.sh".
Proof.
  destruct (get_deploy_script_stays_in_service_directory
              (mkService (Some 1) "web" {[ "deploy_script" := VStr "../run.sh" ]}))
    as (_ & H & _).
  destruct (H "../run.sh") as (script & Hp & Hs); [reflexivity|].
  exists script. split; [exact Hp|]. rewrite Hs. vm_compute. reflexivity.
Defined.

Example get_deploy_script_strips_traversal :
  get_deploy_script (mkService (Some 1) "web" {[ "deploy_script" := VStr "../../etc/run.sh" ]})
  = Ok "web/....etcrun.sh".
Proof. vm_compute. reflexivity. Qed.

(** * Deletion events: [Service.delete] *)

(** Deleting services one after the other appends, to the one list all
    services share, a [ServiceDeleted] event for each service that has an
    id, in the order of the calls, and nothing for services never saved;
    the events already recorded stay in front. *)
Theorem delete_records_persisted_services (services : list Service) (events : list Event) :
  foldl (fun evs s => delete s evs) events services
  = events ++ (ServiceDeleted <$> omap svc_id services).
Proof.
  revert events. induction services as [|s services IH]; intros events; simpl.
  - by rewrite app_nil_r.
  - rewrite IH. unfold delete. destruct (svc_id s) as [id|]; [|done].
    cbn [omap list_omap]. by rewrite <- app_assoc.
Qed.
(** * Further properties of the delivery loop *)

Section DeliveryLoop.

Variable network : nat -> post_outcome.

Lemma post_loop_first_response range event r : forall st j status_code body_is_json,
  (j < length range)%nat ->
  (forall n, (n < j)%nat -> network (attempts st + n) = ConnectError) ->
  network (attempts st + j) = Response status_code body_is_json ->
  post_loop network range event r st
  = (Ok (Some (status_code, body_is_json)),
     mkTaskState (attempts st + j + 1) (sleeps st ++ replicate j 3)
                 (delivered st ++ [event]) (discarded st)).
Proof.
  induction range as [|a range IH]; intros st j c b Hj Href Hresp; simpl in *; [lia|].
  destruct j as [|j].
  - rewrite Nat.add_0_r in Hresp. rewrite Hresp. simpl.
    rewrite app_nil_r. do 2 f_equal. lia.
  - pose proof (Href 0%nat ltac:(lia)) as H0. rewrite Nat.add_0_r in H0. rewrite H0.
    rewrite (IH _ j c b); simpl.
    + do 2 f_equal; [lia|]. by rewrite <- app_assoc.
    + lia.
    + intros n Hn. replace (S (attempts st + n))%nat with (attempts st + S n)%nat by lia.
      apply Href. lia.
    + by replace (S (attempts st + j))%nat with (attempts st + S j)%nat by lia.
Qed.

(** What one pass of the loop does to the counters, whatever the network:
    the first [k] POSTs are refused and each followed by a sleep of three
    seconds; then the range is used up, or the next POST is answered and
    the event delivered, or the next POST raises and nothing is delivered. *)
Lemma post_loop_accounts range event : forall r st,
  exists k : nat,
    (k <= length range)%nat /\
    (forall n, (n < k)%nat -> network (attempts st + n) = ConnectError) /\
    sleeps (post_loop network range event r st).2 = sleeps st ++ replicate k 3 /\
    discarded (post_loop network range event r st).2 = discarded st /\
    (((post_loop network range event r st).1 = Ok r /\
      delivered (post_loop network range event r st).2 = delivered st /\
      attempts (post_loop network range event r st).2 = (attempts st + k)%nat /\
      k = length range)
     \/
     ((exists status_code body_is_json,
         network (attempts st + k) = Response status_code body_is_json /\
         (post_loop network range event r st).1 = Ok (Some (status_code, body_is_json))) /\
      delivered (post_loop network range event r st).2 = delivered st ++ [event] /\
      attempts (post_loop network range event r st).2 = (attempts st + k + 1)%nat /\
      (k < length range)%nat)
     \/
     ((exists exception,
         network (attempts st + k) = OtherException exception /\
         (post_loop network range event r st).1 = Err (PostException exception)) /\
      delivered (post_loop network range event r st).2 = delivered st /\
      attempts (post_loop network range event r st).2 = (attempts st + k + 1)%nat /\
      (k < length range)%nat)).
Proof.
  induction range as [|a range IH]; intros r st; simpl.
  - exists 0%nat. simpl. rewrite app_nil_r. split_and!; try done.
    + intros n Hn. lia.
    + left. split_and!; first [done|lia].
  - destruct (network (attempts st)) as [|e|c b] eqn:E.
    + destruct (IH r (mkTaskState (S (attempts st)) (sleeps st ++ [3]) (delivered st)
                                  (discarded st)))
        as (k & Hk & Href & Hsl & Hdi & Hcase).
      exists (S k). simpl in *. split_and!.
      * lia.
      * intros [|n] Hn; [by rewrite Nat.add_0_r|].
        replace (attempts st + S n)%nat with (S (attempts st + n))%nat by lia.
        apply Href. lia.
      * rewrite Hsl. by rewrite <- app_assoc.
      * done.
      * replace (attempts st + S k)%nat with (S (attempts st + k))%nat by lia.
        destruct Hcase as [(Hr & Hde & Hat & Hkl)|[(Hr & Hde & Hat & Hkl)|(Hr & Hde & Hat & Hkl)]].
        -- left. split_and!; first [done|lia].
        -- right; left. split_and!; first [done|lia].
        -- right; right. split_and!; first [done|lia].
    + exists 0%nat. simpl. rewrite app_nil_r, Nat.add_0_r. split_and!; try done; try lia.
      right; right. split_and!; first [done|lia|by eexists].
    + exists 0%nat. simpl. rewrite app_nil_r, Nat.add_0_r. split_and!; try done; try lia.
      right; left. split_and!; first [done|lia|by eexists _, _].
Qed.

End DeliveryLoop.

(** The retry stops at the first answer: if the first [j] POSTs of an event,
    [j] below 3, are refused and the next one is answered, then
    [process_deploy_event] has made [j + 1] POSTs, slept three seconds [j]
    times and delivered the event once; it returns normally when the answer
    carries JSON and raises [JSONDecodeError] otherwise. *)
Theorem process_deploy_event_stops_at_first_response
    (network : nat -> post_outcome) event st j status_code body_is_json :
  (j < 3)%nat ->
  (forall n, (n < j)%nat -> network (attempts st + n)%nat = ConnectError) ->
  network (attempts st + j)%nat = Response status_code body_is_json ->
  process_deploy_event network event st
  = (if body_is_json then Ok tt else Err JSONDecodeError,
     mkTaskState (attempts st + j + 1) (sleeps st ++ replicate j 3)
                 (delivered st ++ [event]) (discarded st)).
Proof.
  intros Hj Href Hresp. unfold process_deploy_event.
  rewrite (post_loop_first_response network (seq 0 3) event None st j
             status_code body_is_json); [by destruct body_is_json|done|done|done].
Qed.

Lemma process_deploy_event_stops_at_first_response_witness :
  process_deploy_event TaskExamples.flaky TaskExamples.event_a initial_task_state
  = (Ok tt, mkTaskState 3 [3; 3] [TaskExamples.event_a] []).
Proof.
  apply (process_deploy_event_stops_at_first_response TaskExamples.flaky
           TaskExamples.event_a initial_task_state 2 200 true).
  - lia.
  - intros n Hn. simpl. unfold TaskExamples.flaky. by rewrite decide_True by lia.
  - reflexivity.
Defined.

Lemma process_deploy_event_posts (network : nat -> post_outcome) event st :
  exists k : nat,
    (k <= 3)%nat /\
    (forall n, (n < k)%nat -> network (attempts st + n)%nat = ConnectError) /\
    sleeps (process_deploy_event network event st).2 = sleeps st ++ replicate k 3 /\
    discarded (process_deploy_event network event st).2 = discarded st /\
    ((k = 3%nat /\
      (process_deploy_event network event st).1 = Err UnboundLocalError /\
      delivered (process_deploy_event network event st).2 = delivered st /\
      attempts (process_deploy_event network event st).2 = (attempts st + 3)%nat)
     \/
     ((k < 3)%nat /\
      (exists status_code body_is_json,
         network (attempts st + k)%nat = Response status_code body_is_json /\
         (process_deploy_event network event st).1
         = if body_is_json then Ok tt else Err JSONDecodeError) /\
      delivered (process_deploy_event network event st).2 = delivered st ++ [event] /\
      attempts (process_deploy_event network event st).2 = (attempts st + k + 1)%nat)
     \/
     ((k < 3)%nat /\
      (exists exception,
         network (attempts st + k)%nat = OtherException exception /\
         (process_deploy_event network event st).1 = Err (PostException exception)) /\
      delivered (process_deploy_event network event st).2 = delivered st /\
      attempts (process_deploy_event network event st).2 = (attempts st + k + 1)%nat)).
Proof.
  unfold process_deploy_event.
  destruct (post_loop_accounts network (seq 0 3) event None st)
    as (k & Hk & Href & Hsl & Hdi & Hcase).
  destruct (post_loop network (seq 0 3) event None st) as [r st'] eqn:E. simpl in *.
  exists k.
  destruct Hcase as [(Hr & Hde & Hat & Hkl)|[(Hr & Hde & Hat & Hkl)|(Hr & Hde & Hat & Hkl)]].
  - subst r. simpl. split_and!; try done. left. split_and!; first [done|lia].
  - destruct Hr as (c & b & Hnet & ->). destruct b; simpl; split_and!; try done;
      right; left; split_and!; try done; by eexists _, _.
  - destruct Hr as (e & Hnet & ->). simpl. split_and!; try done.
    right; right. split_and!; try done. by exists e.
Qed.

(** Every POST is accounted for, whatever each POST does (refuse the
    connection, raise another exception, or answer): one call of
    [process_deploy_event] makes at most three POSTs; the first [k] are
    refused and each followed by a sleep of three seconds; then either all
    three were refused, nothing is delivered and the call ends in
    [UnboundLocalError], or the next POST is answered, the event is
    delivered once and the call returns or raises [JSONDecodeError] by the
    body, or the next POST raises another exception, which escapes with
    nothing delivered. *)
Theorem process_deploy_event_accounts_for_every_post
    (network : nat -> post_outcome) event st :
  exists k : nat,
    (k <= 3)%nat /\
    (forall n, (n < k)%nat -> network (attempts st + n)%nat = ConnectError) /\
    sleeps (process_deploy_event network event st).2 = sleeps st ++ replicate k 3 /\
    discarded (process_deploy_event network event st).2 = discarded st /\
    ((k = 3%nat /\
      (process_deploy_event network event st).1 = Err UnboundLocalError /\
      delivered (process_deploy_event network event st).2 = delivered st /\
      attempts (process_deploy_event network event st).2 = (attempts st + 3)%nat)
     \/
     ((k < 3)%nat /\
      (exists status_code body_is_json,
         network (attempts st + k)%nat = Response status_code body_is_json /\
         (process_deploy_event network event st).1
         = if body_is_json then Ok tt else Err JSONDecodeError) /\
      delivered (process_deploy_event network event st).2 = delivered st ++ [event] /\
      attempts (process_deploy_event network event st).2 = (attempts st + k + 1)%nat)
     \/
     ((k < 3)%nat /\
      (exists exception,
         network (attempts st + k)%nat = OtherException exception /\
         (process_deploy_event network event st).1 = Err (PostException exception)) /\
      delivered (process_deploy_event network event st).2 = delivered st /\
      attempts (process_deploy_event network event st).2 = (attempts st + k + 1)%nat)).
Proof. apply process_deploy_event_posts. Qed.

Example process_deploy_event_timeout :
  process_deploy_event TaskExamples.slow TaskExamples.event_a initial_task_state
  = (Err (PostException "ReadTimeout"), mkTaskState 1 [] [] []).
Proof. reflexivity. Qed.

(** * Further properties of the pipeline loop: [run_deploy] *)

(** Events are forwarded in the order the script prints them, each at most
    once and without gaps.  For the lines read and whatever each POST does,
    the events delivered by [run_deploy] are a prefix of the events read
    from the lines that decode and parse; when the loop ends normally they
    are all delivered and every line has decoded.  A [JSONDecodeError]
    never ends the loop.  When it ends with the [UnboundLocalError] of an
    event refused three times, or with an exception of a POST other than
    [ConnectError], some event is left undelivered; when it ends with
    [UnicodeDecodeError], some line does not decode.  Lines that do not
    parse cost no POST: the attempts are at most three per event. *)
Theorem run_deploy_forwards_in_order (network : nat -> post_outcome)
    (bytes_decode : string -> option string) (json_loads : string -> option dict)
    lines st :
  let events := omap (fun data => bytes_decode data ≫= json_loads) lines in
  let outcome := run_deploy network bytes_decode json_loads lines st in
  exists k : nat,
    (k <= length events)%nat /\
    delivered outcome.2 = delivered st ++ take k events /\
    (outcome.1 = Ok tt ->
       k = length events /\ Forall (fun data => is_Some (bytes_decode data)) lines) /\
    outcome.1 <> Err JSONDecodeError /\
    (outcome.1 = Err UnboundLocalError \/
     (exists exception, outcome.1 = Err (PostException exception)) ->
       (k < length events)%nat) /\
    (outcome.1 = Err UnicodeDecodeError ->
       exists data, data ∈ lines /\ bytes_decode data = None) /\
    (attempts outcome.2 <= attempts st + 3 * length events)%nat.
Proof.
  cbv zeta. revert st. induction lines as [|data rest IH]; intros st.
  - exists 0%nat. simpl. rewrite app_nil_r.
    split_and!; try done; try lia. intros [?|[? ?]]; done.
  - cbn [run_deploy omap list_omap].
    destruct (bytes_decode data) as [decoded|] eqn:Ed; simpl.
    + destruct (json_loads decoded) as [message|] eqn:El.
      * destruct (process_deploy_event_posts network message st)
          as (j & Hj & _ & Hsl & Hdi & Hcase).
        destruct (process_deploy_event network message st) as [res st1] eqn:E.
        simpl in Hsl, Hdi, Hcase.
        destruct Hcase as [(Hj3 & Hres & Hde & Hat)|[(Hj3 & Hres & Hde & Hat)|(Hj3 & Hres & Hde & Hat)]].
        -- subst res. exists 0%nat. simpl. rewrite app_nil_r.
           split_and!; try done; try lia.
        -- assert (Hgo : exists st2,
                     delivered st2 = delivered st1 /\ attempts st2 = attempts st1 /\
                     match res with
                     | Ok _ => run_deploy network bytes_decode json_loads rest st1
                     | Err JSONDecodeError =>
                         run_deploy network bytes_decode json_loads rest
                           (mkTaskState (attempts st1) (sleeps st1) (delivered st1)
                                        (discarded st1 ++ [decoded]))
                     | Err e => (Err e, st1)
                     end = run_deploy network bytes_decode json_loads rest st2).
           { destruct Hres as (c & b & _ & ->). destruct b; [by exists st1|].
             by exists (mkTaskState (attempts st1) (sleeps st1) (delivered st1)
                                    (discarded st1 ++ [decoded])). }
           destruct Hgo as (st2 & Hde2 & Hat2 & ->).
           destruct (IH st2) as (k & Hk & Hdel & Hok & Hnj & Herr & Hdec & Hatt).
           exists (S k). simpl. split_and!.
           ++ lia.
           ++ rewrite Hdel, Hde2, Hde. by rewrite <- app_assoc.
           ++ intros Hr. destruct (Hok Hr) as [-> Hall]. split; [done|].
              apply Forall_cons. split; [by rewrite Ed|done].
           ++ done.
           ++ intros Hr. specialize (Herr Hr). lia.
           ++ intros Hr. destruct (Hdec Hr) as (d & Hd & Hn).
              exists d. split; [|done]. apply elem_of_cons. by right.
           ++ lia.
        -- destruct Hres as (e & _ & ->). exists 0%nat. simpl. rewrite app_nil_r.
           split_and!; try done; try lia.
      * destruct (IH (mkTaskState (attempts st) (sleeps st) (delivered st)
                                  (discarded st ++ [decoded])))
          as (k & Hk & Hdel & Hok & Hnj & Herr & Hdec & Hatt).
        exists k. split_and!; try done.
        -- intros Hr. destruct (Hok Hr) as [-> Hall]. split; [done|].
           apply Forall_cons. split; [by rewrite Ed|done].
        -- intros Hr. destruct (Hdec Hr) as (d & Hd & Hn).
           exists d. split; [|done]. apply elem_of_cons. by right.
    + exists 0%nat. rewrite app_nil_r. split_and!; try done; try lia.
      * intros [?|[? ?]]; done.
      * intros _. exists data. split; [|done]. apply elem_of_cons. by left.
Qed.



Example run_deploy_undecodable_line :
  run_deploy (fun _ => Response 200 true) TaskExamples.utf8 TaskExamples.loads
             ["first"; String "255"%char EmptyString; "second"] initial_task_state
  = (Err UnicodeDecodeError, mkTaskState 1 [] [TaskExamples.event_a] []).
Proof. vm_compute. reflexivity. Qed.

Example run_deploy_timeout :
  run_deploy TaskExamples.slow TaskExamples.utf8 TaskExamples.loads
             ["first"; "second"] initial_task_state
  = (Err (PostException "ReadTimeout"), mkTaskState 1 [] [] []).
Proof. vm_compute. reflexivity. Qed.

(** * The steps to do: failures and the service never saved *)

(** [get_steps_to_do_from_service] fails only on a malformed ["steps"]
    entry of the configuration, and only after the table gave no recorded
    step; [ServicePydantic.get_steps] fails on a service without an id
    (its [assert]) or, for a service with no successful deployment, on the
    malformed entry, so a recorded deployment hides a malformed
    configuration from both.  For a service never saved [get_steps] always
    fails, while [get_steps_to_do_from_service] answers from the
    configuration alone, with or without a unit of work. *)
Theorem steps_to_do_failures (parse : time -> time) (last : Z -> option Z)
    (service : Service) :
  (forall uow e, get_steps_to_do_from_service last service uow = Err e ->
     e = StepsTypeError /\
     config_steps (svc_data service) = Err StepsTypeError /\
     forall db, uow = Some db -> get_steps_from_last_deployment last service db = []) /\
  (forall db e, get_steps parse last service db = Err e ->
     (e = StepsAssertionError /\ svc_id service = None) \/
     (e = StepsTypeError /\
      config_steps (svc_data service) = Err StepsTypeError /\
      exists service_id, svc_id service = Some service_id /\ last service_id = None)) /\
  (svc_id service = None ->
     forall uow db,
       get_steps parse last service db = Err StepsAssertionError /\
       get_steps_to_do_from_service last service uow = steps_from_config service).
Proof.
  assert (Hcfg : forall e, steps_from_config service = Err e ->
                   e = StepsTypeError /\ config_steps (svc_data service) = Err StepsTypeError).
  { intros e. unfold steps_from_config.
    destruct (config_steps (svc_data service)) as [kws|e'] eqn:Ec.
    - by case_decide.
    - intros [= <-]. revert Ec. unfold config_steps.
      destruct (svc_data service !! "steps") as [[| |]|]; try done;
        try case_decide; try done; by intros [= <-]. }
  split_and!.
  - intros [db|] e; unfold get_steps_to_do_from_service.
    + destruct (get_steps_from_last_deployment last service db) eqn:E; [|done].
      intros He. destruct (Hcfg e He) as [-> Hc]. split_and!; try done.
      by intros db' [= <-].
    + intros He. destruct (Hcfg e He) as [-> Hc]. by split_and!.
  - intros db e. unfold get_steps.
    destruct (svc_id service) as [service_id|]; [|intros [= <-]; by left].
    destruct (last service_id) as [d|] eqn:El.
    + by case_decide.
    + destruct (config_steps (svc_data service)) as [kws|e'] eqn:Ec.
      * by case_decide.
      * intros [= <-]. right.
        assert (He : e' = StepsTypeError).
        { revert Ec. unfold config_steps.
          destruct (svc_data service !! "steps") as [[| |]|]; try done;
            try case_decide; try done; by intros [= <-]. }
        subst e'. split_and!; try done. by exists service_id.
  - intros Hid uow db. split.
    + unfold get_steps. by rewrite Hid.
    + unfold get_steps_to_do_from_service, get_steps_from_last_deployment.
      rewrite Hid. by destruct uow.
Qed.

Lemma steps_to_do_failures_witness :
  config_steps (svc_data (mkService (Some 1) "web" {[ "steps" := VInt 3 ]}))
  = Err StepsTypeError.
Proof.
  destruct (steps_to_do_failures StepsExamples.parse StepsExamples.last_ok
              (mkService (Some 1) "web" {[ "steps" := VInt 3 ]})) as (H & _).
  destruct (H None StepsTypeError) as (_ & Hc & _); [reflexivity|exact Hc].
Defined.

Example steps_to_do_malformed_configuration :
  let service := mkService (Some 1) "web" {[ "steps" := VInt 3 ]} in
  get_steps_to_do_from_service StepsExamples.last_ok service (Some StepsExamples.recorded)
    = Ok StepsExamples.recorded /\
  get_steps_to_do_from_service StepsExamples.last_ok service None = Err StepsTypeError /\
  get_steps StepsExamples.parse StepsExamples.last_ok (mkService None "web" ∅) StepsExamples.recorded
    = Err StepsAssertionError.
Proof. cbv zeta. split_and!; vm_compute; reflexivity. Qed.
